(** * A shallow embedding of [src/lib/terminal-vfs.ts]

    The TypeScript class [VirtualFileSystem] keeps a tree of
    [FileSystemNode] objects linked in both directions ([children] and
    [parent]).  Objects are modelled as cells of a heap and object
    references as indices into it, so that the back pointers and the
    identity comparison [current !== this.root] keep their meaning.

    Strings are Rocq strings (sequences of 8-bit characters), read as
    UTF-8.  Every string the program builds itself is ASCII, and the
    operations applied to caller-supplied strings (equality, splitting on
    ['/'] or [' '], prefix tests) commute with the UTF-8 encoding;
    [.length], which counts UTF-16 code units, is [Js.length_utf16]. *)

From Stdlib Require Import List String Ascii Bool Arith Lia ZArith.
From Stdlib Require Import DecimalString.
Import ListNotations.

Open Scope string_scope.
Open Scope list_scope.

(** ** The string and array built-ins the source relies on *)

Module Js.

Definition CR : ascii := "013"%char.
Definition LF : ascii := "010"%char.
Definition crlf : string := String CR (String LF EmptyString).
Definition lf : string := String LF EmptyString.
Definition dquote : string := String "034"%char EmptyString.

(** [s.split(sep)] for a one-character separator. *)
Fixpoint split (sep : ascii) (s : string) : list string :=
  match s with
  | EmptyString => [EmptyString]
  | String c r =>
      if Ascii.eqb c sep then EmptyString :: split sep r
      else match split sep r with
           | h :: t => String c h :: t
           | [] => [String c EmptyString]
           end
  end.

(** [l.join(sep)] *)
Fixpoint join (sep : string) (l : list string) : string :=
  match l with
  | [] => EmptyString
  | x :: r =>
      match r with
      | [] => x
      | _ :: _ => (x ++ sep ++ join sep r)%string
      end
  end.

(** [s.startsWith(pre)] *)
Definition startsWith (s pre : string) : bool := String.prefix pre s.

(** [s.lastIndexOf(c)]: the greatest index holding [c], or [-1]. *)
Fixpoint lastIndexOf_from (i : Z) (c : ascii) (s : string) (found : Z) : Z :=
  match s with
  | EmptyString => found
  | String a r =>
      lastIndexOf_from (i + 1) c r (if Ascii.eqb a c then i else found)
  end.

Definition lastIndexOf (s : string) (c : ascii) : Z :=
  lastIndexOf_from 0 c s (-1).

(** [s.substring(start, stop)] and [s.substring(start)], for
    [0 <= start <= stop]. *)
Definition substring (s : string) (start stop : Z) : string :=
  String.substring (Z.to_nat start) (Z.to_nat stop - Z.to_nat start) s.

Definition substring_from (s : string) (start : Z) : string :=
  String.substring (Z.to_nat start) (String.length s - Z.to_nat start) s.

(** [n.toString()] for a non-negative integer. *)
Definition toString (n : nat) : string :=
  NilEmpty.string_of_uint (Nat.to_uint n).

Fixpoint spaces (n : nat) : string :=
  match n with
  | 0 => EmptyString
  | S k => String " "%char (spaces k)
  end.

(** [s.padStart(width)] *)
Definition padStart (s : string) (width : nat) : string :=
  (spaces (width - String.length s) ++ s)%string.

(** [l.includes(x)] on an array of strings. *)
Definition includes (l : list string) (x : string) : bool :=
  existsb (String.eqb x) l.

(** Truthiness of a string: [""] is the only falsy one. *)
Definition truthy (s : string) : bool := negb (String.eqb s EmptyString).

(** The last element of a non-empty array; [split] never returns an
    empty one. *)
Definition last_token (l : list string) : string := List.last l EmptyString.

(** The UTF-16 code units one byte of a UTF-8 string stands for: one for
    an ASCII byte and for the lead byte of a two- or three-byte
    sequence, two for the lead byte of a four-byte sequence (a surrogate
    pair), none for a continuation byte. *)
Definition code_units (a : ascii) : nat :=
  match a with
  | Ascii _ _ _ _ b4 b5 b6 b7 =>
      if negb b7 then 1
      else if negb b6 then 0
      else if b5 && b4 then 2
      else 1
  end.

(** [s.length]: the number of UTF-16 code units of [s]. *)
Fixpoint length_utf16 (s : string) : nat :=
  match s with
  | EmptyString => 0
  | String a r => code_units a + length_utf16 r
  end.

End Js.

(** ** The object graph *)

Inductive NodeType : Set := file | directory.

(** An object reference. *)
Definition ref : Set := nat.

Record FileSystemNode : Set := mkNode
  { name : string;
    type : NodeType;
    content : option string;
    children : option (list ref);
    parent : option ref }.

Definition Heap : Set := list FileSystemNode.

(** What reading an index outside the heap yields.  References are only
    ever produced by allocation, so such a read does not occur in a state
    the program reaches (see [refs_closed]). *)
Definition unallocated : FileSystemNode := mkNode "" file None None None.

Definition deref (h : Heap) (r : ref) : FileSystemNode := nth r h unallocated.

Fixpoint update (h : Heap) (r : ref) (f : FileSystemNode -> FileSystemNode)
  : Heap :=
  match h with
  | [] => []
  | x :: t =>
      match r with
      | 0 => f x :: t
      | S r' => x :: update t r' f
      end
  end.

Definition set_parent (p : option ref) (nd : FileSystemNode) : FileSystemNode :=
  mkNode (name nd) (type nd) (content nd) (children nd) p.

Definition set_children (ks : option (list ref)) (nd : FileSystemNode)
  : FileSystemNode :=
  mkNode (name nd) (type nd) (content nd) ks (parent nd).

(** ** Construction: a small state monad over the heap.  [None] stands for
    a computation that does not finish within its fuel. *)

Definition M (A : Type) : Type := Heap -> option (A * Heap).

Definition ret {A} (a : A) : M A := fun h => Some (a, h).

Definition bind {A B} (m : M A) (k : A -> M B) : M B :=
  fun h => match m h with
           | Some (a, h') => k a h'
           | None => None
           end.

Notation "x <- m ;; k" := (bind m (fun x => k))
  (at level 61, m at next level, right associativity).
Notation "m ;;; k" := (bind m (fun _ => k))
  (at level 61, right associativity).

(** An object literal allocates a fresh cell. *)
Definition alloc (nd : FileSystemNode) : M ref :=
  fun h => Some (List.length h, h ++ [nd]).

Definition modify (r : ref) (f : FileSystemNode -> FileSystemNode) : M unit :=
  fun h => Some (tt, update h r f).

Definition read (r : ref) : M FileSystemNode :=
  fun h => Some (deref h r, h).

Definition diverge {A} : M A := fun _ => None.

(** [l.forEach(body)] *)
Fixpoint forEach {A} (l : list A) (body : A -> M unit) : M unit :=
  match l with
  | [] => ret tt
  | x :: r => body x ;;; forEach r body
  end.

(** [setParents(node, parent)] *)
Fixpoint setParents (fuel : nat) (node : ref) (parent_ : option ref) : M unit :=
  match fuel with
  | 0 => diverge
  | S fuel' =>
      modify node (set_parent parent_) ;;;
      nd <- read node ;;
      match children nd with
      | Some ks => forEach ks (fun child => setParents fuel' child (Some node))
      | None => ret tt
      end
  end.

Definition createFile (name_ content_ : string) : M ref :=
  alloc (mkNode name_ file (Some content_) None None).

Definition createDir (name_ : string) (children_ : list ref) : M ref :=
  alloc (mkNode name_ directory None (Some children_) None).

Definition readme_content : string :=
  "Welcome to SAIC CyberSec Club." ++ Js.crlf ++
  "We hack. We learn. We defend." ++ Js.crlf ++
  "Ethical hacking at IIT Mandi.".

Definition members_content : string :=
  "SAIC Core Team Members:" ++ Js.crlf ++ Js.crlf ++
  "Coordinator:" ++ Js.crlf ++
  "- Abhinandan Kumar" ++ Js.crlf ++ Js.crlf ++
  "Core Team:" ++ Js.crlf ++
  "- Somit Gond" ++ Js.crlf ++
  "- Ayush Gaurav" ++ Js.crlf ++
  "- Utsav" ++ Js.crlf ++
  "- Divyanshu" ++ Js.crlf ++
  "- Abhijith R Nair" ++ Js.crlf ++
  "- Pranav Shirbhate" ++ Js.crlf ++
  "- Vishnu" ++ Js.crlf ++
  "- Piyush Panpaliya" ++ Js.crlf ++
  "- Piyush Dwivedi" ++ Js.crlf ++
  "- Davda James" ++ Js.crlf ++
  "- Arani Ghosh" ++ Js.crlf ++ Js.crlf.

Definition cve_content : string :=
  "# Exploit for CVE-2024-1337" ++ Js.lf ++
  "import os" ++ Js.lf ++
  "print(" ++ Js.dquote ++ "Exploiting..." ++ Js.dquote ++ ")".

Definition overflow_content : string :=
  "// Buffer overflow example" ++ Js.lf ++
  "#include <stdio.h>" ++ Js.lf ++
  "void main() { char buf[10]; gets(buf); }".

Definition nmap_content : string :=
  "#!/bin/bash" ++ Js.lf ++
  "echo " ++ Js.dquote ++ "Nmap scan initiated..." ++ Js.dquote.

Definition metasploit_content : string :=
  "#!/bin/bash" ++ Js.lf ++
  "echo " ++ Js.dquote ++ "Starting Metasploit Framework..." ++ Js.dquote.

Definition passwords_content : string :=
  "admin:admin123" ++ Js.lf ++ "root:toor".

(** [createInitialFileSystem()].  Allocation follows JavaScript's
    evaluation order: the elements of an array literal are created before
    the directory that receives them. *)
Definition createInitialFileSystem (fuel : nat) : M ref :=
  root_ <- alloc (mkNode "/" directory None (Some []) None) ;;
  readme <- createFile "README.txt" readme_content ;;
  members <- createFile "members.txt" members_content ;;
  flag <- createFile "flag.txt" "SAIC{w3lc0m3_70_541c}" ;;
  cve <- createFile "cve-2024-1337.py" cve_content ;;
  overflow <- createFile "buffer_overflow.c" overflow_content ;;
  exploits <- createDir "exploits" [cve; overflow] ;;
  nmap <- createFile "nmap" nmap_content ;;
  metasploit <- createFile "metasploit" metasploit_content ;;
  tools <- createDir "tools" [nmap; metasploit] ;;
  passwords <- createFile "passwords.txt" passwords_content ;;
  secrets <- createDir "secrets" [passwords] ;;
  modify root_
    (set_children (Some [readme; members; flag; exploits; tools; secrets])) ;;;
  setParents fuel root_ None ;;;
  ret root_.

(** ** The class *)

Record VirtualFileSystem : Set := mkVFS
  { heap : Heap;
    root : ref;
    currentDir : ref }.

(** The recursion of [setParents] is as deep as the tree; any fuel above
    that depth gives the same heap (see [constructor_fuel]). *)
Definition construction_fuel : nat := 16.

(** [new VirtualFileSystem()] *)
Definition constructor : option VirtualFileSystem :=
  match createInitialFileSystem construction_fuel [] with
  | Some (r, h) => Some (mkVFS h r r)
  | None => None
  end.

(** Loops whose body can fail to finish: [for (const x of l) body]. *)
Fixpoint for_of {A S : Type} (l : list A) (body : A -> S -> option S) (s : S)
  : option S :=
  match l with
  | [] => Some s
  | x :: r =>
      match body x s with
      | Some s' => for_of r body s'
      | None => None
      end
  end.

Section Methods.

Variable v : VirtualFileSystem.

(** [current.parent || this.root] *)
Definition parent_or_root (current : ref) : ref :=
  match parent (deref (heap v) current) with
  | Some p => p
  | None => root v
  end.

(** The body of [resolvePath]'s [for] loop: [continue] goes on with the
    remaining parts, [return null] leaves with [None]. *)
Fixpoint resolve_loop (parts : list string) (current : ref) : option ref :=
  match parts with
  | [] => Some current
  | part :: rest =>
      if String.eqb part ".." then resolve_loop rest (parent_or_root current)
      else
        let nd := deref (heap v) current in
        match type nd, children nd with
        | directory, Some ks =>
            match List.find (fun child =>
                          String.eqb (name (deref (heap v) child)) part) ks with
            | Some found => resolve_loop rest found
            | None => None
            end
        | _, _ => None
        end
  end.

(** [path.split('/').filter(p => p && p !== '.')] *)
Definition path_parts (path : string) : list string :=
  filter (fun p => Js.truthy p && negb (String.eqb p "."))
         (Js.split "/"%char path).

(** [resolvePath(path)]; [None] is [null]. *)
Definition resolvePath (path : string) : option ref :=
  if String.eqb path "/" || String.eqb path "~" then Some (root v)
  else if String.eqb path "." then Some (currentDir v)
  else if String.eqb path ".." then Some (parent_or_root (currentDir v))
  else
    let parts := path_parts path in
    let current := if Js.startsWith path "/" then root v else currentDir v in
    resolve_loop parts current.

(** The [while] loop of [getPwd]; [current] is [None] when it is
    [undefined]. *)
Fixpoint getPwd_loop (fuel : nat) (current : option ref) (path : list string)
  : option (list string) :=
  match fuel with
  | 0 => None
  | S fuel' =>
      match current with
      | Some c =>
          if Nat.eqb c (root v) then Some path
          else getPwd_loop fuel' (parent (deref (heap v) c))
                           (name (deref (heap v) c) :: path)
      | None => Some path
      end
  end.

(** A chain of [parent] links that ends visits each cell at most once,
    so one more than the number of cells is fuel enough for every run
    that finishes. *)
Definition walk_fuel : nat := S (List.length (heap v)).

(** The names from the root down to [n], as [getPwd]'s loop collects
    them. *)
Definition names_to (n : ref) : option (list string) :=
  getPwd_loop walk_fuel (Some n) [].

Definition render_path (path : list string) : string :=
  ("/" ++ Js.join "/" path)%string.

(** [getPwd()] *)
Definition getPwd : option string :=
  option_map render_path (names_to (currentDir v)).

(** [getPrompt()] *)
Definition getPrompt : option string :=
  option_map
    (fun path =>
       if String.eqb path "/" then "root@saic:~$ "
       else ("root@saic:" ++ path ++ "$ ")%string)
    getPwd.

Definition long_line (child : ref) : string :=
  let nd := deref (heap v) child in
  let type_ := match type nd with directory => "d" | file => "-" end in
  let perm := "rwxr-xr-x" in
  let size := match content nd with
              | Some c => if Js.truthy c then Js.length_utf16 c else 4096
              | None => 4096
              end in
  let date := "Nov 19 10:00" in
  (type_ ++ perm ++ " 1 root root " ++ Js.padStart (Js.toString size) 5
     ++ " " ++ date ++ " " ++ name nd)%string.

Definition short_entry (child : ref) : string :=
  let nd := deref (heap v) child in
  match type nd with
  | directory => (name nd ++ "/")%string
  | file => name nd
  end.

(** [args[0] || '.'] *)
Definition first_or_dot (args : list string) : string :=
  match args with
  | a :: _ => if Js.truthy a then a else "."
  | [] => "."
  end.

(** [ls(args)] *)
Definition ls (args : list string) : string :=
  let targetPath := first_or_dot args in
  match resolvePath targetPath with
  | None =>
      ("ls: cannot access '" ++ targetPath
         ++ "': No such file or directory")%string
  | Some node =>
      let nd := deref (heap v) node in
      match type nd with
      | file => name nd
      | directory =>
          match children nd with
          | None => ""
          | Some [] => ""
          | Some ks =>
              let isLong := Js.includes args "-la" || Js.includes args "-l"
                            || Js.includes args "-al" in
              if isLong then Js.join Js.crlf (map long_line ks)
              else Js.join "  " (map short_entry ks)
          end
      end
  end.

(** [cd(path)]: the message returned and the object after the call. *)
Definition cd (path : string) : string * VirtualFileSystem :=
  if negb (Js.truthy path) || String.eqb path "~" then
    ("", mkVFS (heap v) (root v) (root v))
  else
    match resolvePath path with
    | None => (("cd: " ++ path ++ ": No such file or directory")%string, v)
    | Some node =>
        match type (deref (heap v) node) with
        | directory => ("", mkVFS (heap v) (root v) node)
        | file => (("cd: " ++ path ++ ": Not a directory")%string, v)
        end
    end.

(** [cat(args)] *)
Definition cat (args : list string) : string :=
  match args with
  | [] => "cat: missing operand"
  | path :: _ =>
      match resolvePath path with
      | None => ("cat: " ++ path ++ ": No such file or directory")%string
      | Some node =>
          let nd := deref (heap v) node in
          match type nd with
          | directory => ("cat: " ++ path ++ ": Is a directory")%string
          | file =>
              match content nd with
              | Some c => c
              | None => ""
              end
          end
      end
  end.

(** The path handed to a child in [traverse]. *)
Definition child_path (currentPath : string) (child : ref) : string :=
  if String.eqb currentPath "/"
  then ("/" ++ name (deref (heap v) child))%string
  else (currentPath ++ "/" ++ name (deref (heap v) child))%string.

(** The closure [traverse] of [find]; the array [results] it pushes to
    is threaded through. *)
Fixpoint traverse (fuel : nat) (node : ref) (currentPath : string)
         (results : list string) : option (list string) :=
  match fuel with
  | 0 => None
  | S fuel' =>
      let results := results ++ [currentPath] in
      let nd := deref (heap v) node in
      match type nd, children nd with
      | directory, Some ks =>
          for_of ks
                 (fun child =>
                    traverse fuel' child (child_path currentPath child))
                 results
      | _, _ => Some results
      end
  end.

(** [find(path)]; the default argument is [find_default]. *)
Definition find (path : string) : option string :=
  match resolvePath path with
  | None =>
      Some ("find: '" ++ path ++ "': No such file or directory")%string
  | Some startNode =>
      let initialDisplayPath := path in
      let initialDisplayPath :=
        if String.eqb path "." then "." else initialDisplayPath in
      option_map (Js.join Js.crlf)
                 (traverse walk_fuel startNode initialDisplayPath [])
  end.

Definition find_default : option string := find ".".

(** [getCompletions(input)] *)
Definition getCompletions (input : string) : list string :=
  let tokens := Js.split " "%char input in
  let lastToken := Js.last_token tokens in
  let lastSlashIndex := Js.lastIndexOf lastToken "/"%char in
  let '(searchPath, partialName) :=
    if negb (Z.eqb lastSlashIndex (-1)) then
      (let before := Js.substring lastToken 0 lastSlashIndex in
       if Js.truthy before then before else "/",
       Js.substring_from lastToken (lastSlashIndex + 1))
    else (".", lastToken) in
  match resolvePath searchPath with
  | None => []
  | Some dirNode =>
      let nd := deref (heap v) dirNode in
      match type nd, children nd with
      | directory, Some ks =>
          map short_entry
              (filter (fun child =>
                         Js.startsWith (name (deref (heap v) child))
                                       partialName) ks)
      | _, _ => []
      end
  end.

End Methods.

(** ** The state the constructor builds, and the states a caller can reach *)

Definition initial : VirtualFileSystem :=
  Eval vm_compute in
    match constructor with
    | Some v => v
    | None => mkVFS [] 0 0
    end.

Arguments initial : simpl never.

(** [cd] is the only method that assigns a field. *)
Inductive reachable : VirtualFileSystem -> Prop :=
| reach_new : forall v, constructor = Some v -> reachable v
| reach_cd : forall v path, reachable v -> reachable (snd (cd v path)).

(** * The vocabulary of the specification *)

(** [occurs c s]: the character [c] appears in [s]. *)
Fixpoint occurs (c : ascii) (s : string) : bool :=
  match s with
  | EmptyString => false
  | String a r => Ascii.eqb a c || occurs c r
  end.

(** ** Path expressions *)

(** A decomposition of a path expression at its slashes: pieces free of
    ['/'] which, joined by ['/'], give the expression. *)
Definition pieces_of (p : string) (pieces : list string) : Prop :=
  pieces <> [] /\
  Forall (fun x => occurs "/"%char x = false) pieces /\
  Js.join "/" pieces = p.

(** Empty pieces and bare dots are discarded. *)
Definition kept (piece : string) : bool :=
  negb (String.eqb piece "") && negb (String.eqb piece ".").

Definition begins_with_slash (p : string) : Prop :=
  exists rest, p = String "/"%char rest.

Section Walks.

Variable v : VirtualFileSystem.

Definition named (seg : string) (k : ref) : Prop :=
  name (deref (heap v) k) = seg.

(** [k] is the first element of [ks] that carries the name [seg]. *)
Definition first_named (ks : list ref) (seg : string) (k : ref) : Prop :=
  exists before after,
    ks = before ++ k :: after /\ named seg k /\
    Forall (fun j => ~ named seg j) before.

(** One step up: to the parent, or to the root when there is none. *)
Inductive Up : ref -> ref -> Prop :=
| Up_parent : forall n p, parent (deref (heap v) n) = Some p -> Up n p
| Up_root : forall n, parent (deref (heap v) n) = None -> Up n (root v).

(** The walk over the segments, as the specification words it. *)
Inductive Walk : ref -> list string -> option ref -> Prop :=
| Walk_done : forall n, Walk n [] (Some n)
| Walk_up : forall n m rest r,
    Up n m -> Walk m rest r -> Walk n (".." :: rest) r
| Walk_down : forall n seg rest ks k r,
    seg <> ".." ->
    type (deref (heap v) n) = directory ->
    children (deref (heap v) n) = Some ks ->
    first_named ks seg k ->
    Walk k rest r ->
    Walk n (seg :: rest) r
| Walk_not_found : forall n seg rest,
    seg <> ".." ->
    ~ (exists ks k, type (deref (heap v) n) = directory /\
                    children (deref (heap v) n) = Some ks /\
                    In k ks /\ named seg k) ->
    Walk n (seg :: rest) None.

(** Where the walk starts. *)
Definition start_of (path : string) : ref :=
  if Js.startsWith path "/" then root v else currentDir v.

End Walks.

(** ** Listings *)

(** Some argument asks for the long format. *)
Definition long_requested (args : list string) : Prop :=
  Exists (fun a => a = "-la" \/ a = "-l" \/ a = "-al") args.

(** The name as a listing shows it: directories carry a trailing slash. *)
Definition listed_name (v : VirtualFileSystem) (k : ref) : string :=
  match type (deref (heap v) k) with
  | directory => (name (deref (heap v) k) ++ "/")%string
  | file => name (deref (heap v) k)
  end.

(** The size a long listing reports: the length of a file's content, and
    4096 for a directory. *)
Definition listed_size (nd : FileSystemNode) : nat :=
  match type nd with
  | file => match content nd with
            | Some c => String.length c
            | None => 0
            end
  | directory => 4096
  end.

(** The size column: the decimal number, right-aligned in five columns. *)
Definition size_column (n : nat) : string := Js.padStart (Js.toString n) 5.

Definition long_entry (v : VirtualFileSystem) (k : ref) : string :=
  let nd := deref (heap v) k in
  ((match type nd with directory => "d" | file => "-" end)
     ++ "rwxr-xr-x" ++ " 1 root root " ++ size_column (listed_size nd)
     ++ " " ++ "Nov 19 10:00" ++ " " ++ name nd)%string.

(** The line of the long format as the specification words it: the
    size, the byte length in decimal, stands between single spaces. *)
Definition worded_long_entry (v : VirtualFileSystem) (k : ref) : string :=
  let nd := deref (heap v) k in
  ((match type nd with directory => "d" | file => "-" end)
     ++ "rwxr-xr-x" ++ " 1 root root " ++ Js.toString (listed_size nd)
     ++ " " ++ "Nov 19 10:00" ++ " " ++ name nd)%string.

(** Every character of [s] is ASCII. *)
Fixpoint ascii_only (s : string) : bool :=
  match s with
  | EmptyString => true
  | String (Ascii _ _ _ _ _ _ _ b7) r => negb b7 && ascii_only r
  end.

(** The data-model invariant on contents: a file has a content, which is
    not empty and is ASCII text (so that its length in bytes is its
    length in code units); a directory has none. *)
Definition content_by_kind (v : VirtualFileSystem) (k : ref) : Prop :=
  match type (deref (heap v) k) with
  | file => exists c, content (deref (heap v) k) = Some c /\ c <> "" /\
                      ascii_only c = true
  | directory => content (deref (heap v) k) = None
  end.

(** ** Line endings *)

(** Every line feed of [s] directly follows a carriage return. *)
Fixpoint crlf_only_after (previous_cr : bool) (s : string) : bool :=
  match s with
  | EmptyString => true
  | String a r =>
      (if Ascii.eqb a Js.LF then previous_cr else true)
      && crlf_only_after (Ascii.eqb a Js.CR) r
  end.

Definition crlf_only (s : string) : bool := crlf_only_after false s.

(** ** Completion *)

(** The suggestions drawn from a search directory: none when it was not
    found or is not a directory, otherwise the listed names of the
    children whose name begins with the partial name, in stored order. *)
Definition suggestions (v : VirtualFileSystem) (dir : option ref)
           (partial : string) : list string :=
  match dir with
  | None => []
  | Some d =>
      match type (deref (heap v) d) with
      | file => []
      | directory =>
          map (listed_name v)
              (filter (fun k => String.prefix partial (name (deref (heap v) k)))
                      (match children (deref (heap v) d) with
                       | Some ks => ks
                       | None => []
                       end))
      end
  end.

(** ** Absolute forms *)

Definition segments (p : string) : list string :=
  filter kept (Js.split "/"%char p).

(** The purely textual effect of the segments on a stack of names:
    [".."] drops the last name (nothing at the root), a name is added. *)
Definition normalize (stack : list string) (segs : list string) : list string :=
  fold_left (fun st seg =>
               if String.eqb seg ".." then removelast st else st ++ [seg])
            segs stack.

(** The absolute form of [p] for a caller standing in [cwd]: ["~"] is the
    root; otherwise the segments of [p] are applied to the empty stack
    when [p] begins with a slash, and to the names of [cwd] when not. *)
Definition absolute_form (cwd p : string) : string :=
  if String.eqb p "~" then "/"
  else render_path
         (normalize (if Js.startsWith p "/" then [] else segments cwd)
                    (segments p)).

(** A valid directory path: a non-empty expression that resolves to a
    directory.  The empty string is no path expression: [cd] takes it for
    a call without argument and goes to the root (see [cd_empty_path]). *)
Definition valid_directory_path (v : VirtualFileSystem) (p : string) : Prop :=
  p <> "" /\
  exists n, resolvePath v p = Some n /\ type (deref (heap v) n) = directory.

(** ** Enumerations *)

Section Enumerations.

Variable v : VirtualFileSystem.

(** The children a traversal enters: those of a directory. *)
Definition descend (n : ref) : list ref :=
  match type (deref (heap v) n), children (deref (heap v) n) with
  | directory, Some ks => ks
  | _, _ => []
  end.

(** The display path of a child below a node displayed as [p]: [p],
    a slash, the child's name; no second slash when [p] is ["/"]. *)
Definition display_below (p : string) (k : ref) : string :=
  if String.eqb p "/" then ("/" ++ name (deref (heap v) k))%string
  else (p ++ "/" ++ name (deref (heap v) k))%string.

(** Pre-order: a node, displayed as [p], comes first; the subtrees of
    its children follow, in stored order. *)
Inductive Preorder : ref -> string -> list (ref * string) -> Prop :=
| Pre_visit : forall n p below,
    Below p (descend n) below -> Preorder n p ((n, p) :: below)
with Below : string -> list ref -> list (ref * string) -> Prop :=
| Below_nil : forall p, Below p [] []
| Below_cons : forall p k ks first others,
    Preorder k (display_below p k) first ->
    Below p ks others ->
    Below p (k :: ks) (first ++ others).

(** The nodes under [start]: itself, and the children of the
    directories under it. *)
Inductive Under (start : ref) : ref -> Prop :=
| Under_self : Under start start
| Under_child : forall n k,
    Under start n -> In k (descend n) -> Under start k.

(** No branch below [n] is longer than [d] nodes. *)
Fixpoint height_ok (d : nat) (n : ref) : bool :=
  match d with
  | 0 => false
  | S d' => forallb (height_ok d') (descend n)
  end.

(** The nodes met from [n] within [d] levels, in pre-order. *)
Fixpoint nodes_under (d : nat) (n : ref) : list ref :=
  n :: match d with
       | 0 => []
       | S d' => flat_map (nodes_under d') (descend n)
       end.

End Enumerations.

(** ** The enumeration as the specification words it *)

(** The display path of the starting node in the specification's words:
    the supplied expression when it is relative, the absolute path
    rebuilt from the names when it is not. *)
Definition worded_start_display (v : VirtualFileSystem) (path : string)
           (start : ref) : option string :=
  if Js.startsWith path "/" then option_map render_path (names_to v start)
  else Some path.

(** The emitted pairs in the specification's words: every child's path is
    its parent's recorded path, a slash, and its name. *)
Fixpoint worded_preorder (v : VirtualFileSystem) (d : nat) (n : ref)
         (p : string) : list (ref * string) :=
  (n, p) ::
  match d with
  | 0 => []
  | S d' =>
      flat_map (fun k =>
                  worded_preorder v d' k
                    (p ++ "/" ++ name (deref (heap v) k))%string)
               (descend v n)
  end.

Definition worded_find (v : VirtualFileSystem) (path : string)
  : option string :=
  match resolvePath v path with
  | None => Some ("find: '" ++ path ++ "': No such file or directory")%string
  | Some start =>
      option_map
        (fun p => Js.join Js.crlf
                    (map snd (worded_preorder v (walk_fuel v) start p)))
        (worded_start_display v path start)
  end.

(** ** Two states to evaluate the theorems in *)

(** The state after [cd("exploits")] from the initial one. *)
Definition in_exploits : VirtualFileSystem := snd (cd initial "exploits").

(** A tree made of an empty root directory only. *)
Definition bare_root : VirtualFileSystem :=
  mkVFS [mkNode "/" directory None (Some []) None] 0 0.

(** ** Well-formed object graphs *)

(** A reference that points into the heap. *)
Definition allocated (v : VirtualFileSystem) (r : ref) : Prop :=
  r < List.length (heap v).

(** No reference leaves the heap. *)
Definition refs_closed (v : VirtualFileSystem) : Prop :=
  allocated v (root v) /\
  allocated v (currentDir v) /\
  forall n,
    (forall p, parent (deref (heap v) n) = Some p -> allocated v p) /\
    (forall ks k, children (deref (heap v) n) = Some ks -> In k ks ->
                  allocated v k).

(** Every child of a directory points back to it. *)
Definition parents_consistent (v : VirtualFileSystem) : Prop :=
  forall n ks k,
    type (deref (heap v) n) = directory ->
    children (deref (heap v) n) = Some ks ->
    In k ks ->
    parent (deref (heap v) k) = Some n.

(** Two heaps that differ at most in [parent] fields. *)
Definition same_but_parents (h h' : Heap) : Prop :=
  List.length h' = List.length h /\
  forall r,
    name (deref h' r) = name (deref h r) /\
    type (deref h' r) = type (deref h r) /\
    content (deref h' r) = content (deref h r) /\
    children (deref h' r) = children (deref h r).

(** The invariants of the data model: the root is a directory without
    parent; the current directory is an allocated directory; every other
    allocated node has a parent, an allocated directory that lists it
    exactly once; files have no children and directories no content;
    sibling names are distinct; every allocated node is under the root. *)
Definition tree_invariants (v : VirtualFileSystem) : Prop :=
  type (deref (heap v) (root v)) = directory /\
  parent (deref (heap v) (root v)) = None /\
  allocated v (currentDir v) /\
  type (deref (heap v) (currentDir v)) = directory /\
  (forall n, allocated v n -> n <> root v ->
     exists p ks,
       parent (deref (heap v) n) = Some p /\ allocated v p /\
       type (deref (heap v) p) = directory /\
       children (deref (heap v) p) = Some ks /\
       count_occ Nat.eq_dec ks n = 1) /\
  (forall n, allocated v n ->
     match type (deref (heap v) n) with
     | file => children (deref (heap v) n) = None
     | directory => content (deref (heap v) n) = None
     end) /\
  (forall n ks, children (deref (heap v) n) = Some ks ->
     NoDup (map (fun k => name (deref (heap v) k)) ks)) /\
  (forall n, allocated v n -> Under v (root v) n).

(** A single name: a non-empty string without slash that is none of the
    special segments. *)
Definition plain_name (s : string) : Prop :=
  s <> "" /\ s <> "." /\ s <> ".." /\ s <> "~" /\
  occurs "/"%char s = false.

(** A tree other than the constructed one: [/a/c] and [/b], standing
    in [/a]. *)
Definition sample_tree : VirtualFileSystem :=
  mkVFS [mkNode "/" directory None (Some [1; 2]) None;
         mkNode "a" directory None (Some [3]) (Some 0);
         mkNode "b" file (Some "text") None (Some 0);
         mkNode "c" file None None (Some 1)]
        0 1.

(** * Properties of the built-ins *)

Module JsFacts.
Import Js.

Lemma split_not_nil c s : split c s <> [].
Proof.
  destruct s as [|a r]; simpl; [discriminate|].
  destruct (Ascii.eqb a c); [discriminate|].
  destruct (split c r); discriminate.
Qed.

Lemma join_cons sep x l :
  l <> [] -> join sep (x :: l) = (x ++ sep ++ join sep l)%string.
Proof. destruct l; [congruence | reflexivity]. Qed.

(** Splitting loses nothing: the pieces, joined by the separator, give
    the string back. *)
Lemma join_split c s : join (String c EmptyString) (split c s) = s.
Proof.
  induction s as [|a r IH]; simpl; [reflexivity|].
  destruct (Ascii.eqb a c) eqn:E.
  - apply Ascii.eqb_eq in E; subst a.
    rewrite join_cons by apply split_not_nil.
    simpl. now rewrite IH.
  - destruct (split c r) as [|h t] eqn:S; [now apply split_not_nil in S|].
    destruct t as [|h' t']; simpl in *; now rewrite <- IH.
Qed.

(** No piece contains the separator. *)
Lemma split_free c s : Forall (fun x => occurs c x = false) (split c s).
Proof.
  induction s as [|a r IH]; simpl.
  - now constructor.
  - destruct (Ascii.eqb a c) eqn:E.
    + now constructor.
    + destruct (split c r) as [|h t]; [repeat constructor; simpl; now rewrite E|].
      inversion IH; subst. constructor; [simpl; now rewrite E|assumption].
Qed.

Lemma split_free_id c s : occurs c s = false -> split c s = [s].
Proof.
  induction s as [|a r IH]; simpl; [reflexivity|].
  intros H. apply orb_false_iff in H as [E H].
  rewrite E, (IH H). reflexivity.
Qed.

Lemma split_app_sep c a b :
  split c (a ++ String c b)%string = split c a ++ split c b.
Proof.
  induction a as [|x a' IH]; simpl.
  - now rewrite Ascii.eqb_refl.
  - destruct (Ascii.eqb x c); [now rewrite IH|].
    rewrite IH.
    destruct (split c a') as [|h t] eqn:S; [now apply split_not_nil in S|].
    reflexivity.
Qed.

Lemma last_cons_not_nil (x : string) l d : l <> [] -> last (x :: l) d = last l d.
Proof. destruct l; [congruence | reflexivity]. Qed.

(** A string containing the separator ends, after its last separator,
    with the last piece. *)
Lemma split_last_after c s :
  occurs c s = true ->
  exists q, s = (q ++ String c (last_token (split c s)))%string.
Proof.
  unfold last_token.
  induction s as [|a r IH]; cbn -[last]; [discriminate|].
  destruct (Ascii.eqb a c) eqn:E; cbn -[last].
  - intros _. apply Ascii.eqb_eq in E; subst a.
    rewrite last_cons_not_nil by apply split_not_nil.
    destruct (occurs c r) eqn:O.
    + destruct (IH eq_refl) as [q Hq].
      exists (String c q). simpl. now rewrite <- Hq.
    + exists EmptyString. now rewrite (split_free_id _ _ O).
  - intros O. destruct (IH O) as [q Hq].
    destruct (split c r) as [|h t] eqn:S; [now apply split_not_nil in S|].
    destruct t as [|h' t']; cbn -[last] in *.
    + exfalso. pose proof (join_split c r) as J. rewrite S in J. simpl in J.
      pose proof (split_free c r) as F. rewrite S in F. inversion F; subst.
      congruence.
    + exists (String a q). simpl. rewrite Hq at 1. reflexivity.
Qed.

Lemma last_token_free c s : occurs c (last_token (split c s)) = false.
Proof.
  unfold last_token.
  pose proof (split_free c s) as F. pose proof (split_not_nil c s) as N.
  induction (split c s) as [|x l IH]; [congruence|].
  inversion F; subst. destruct l as [|y l']; [assumption|].
  apply IH; [assumption | discriminate].
Qed.

Lemma occurs_decompose c s :
  occurs c s = true ->
  exists a b, s = (a ++ String c b)%string /\ occurs c b = false.
Proof.
  intros O. destruct (split_last_after c s O) as [q Hq].
  exists q, (last_token (split c s)). split; [assumption|apply last_token_free].
Qed.

Lemma occurs_app c a b : occurs c (a ++ b)%string = occurs c a || occurs c b.
Proof.
  induction a as [|x a' IH]; simpl; [reflexivity|].
  now rewrite IH, orb_assoc.
Qed.

Lemma lastIndexOf_from_free c s i found :
  occurs c s = false -> lastIndexOf_from i c s found = found.
Proof.
  revert i found. induction s as [|a r IH]; simpl; intros i found H.
  - reflexivity.
  - apply orb_false_iff in H as [E H]. rewrite E. now apply IH.
Qed.

Lemma lastIndexOf_from_decomposed c a b i found :
  occurs c b = false ->
  lastIndexOf_from i c (a ++ String c b)%string found
  = (i + Z.of_nat (String.length a))%Z.
Proof.
  intros Hb. revert i found.
  induction a as [|x a' IH]; intros i found.
  - simpl. rewrite Ascii.eqb_refl, lastIndexOf_from_free by assumption. lia.
  - cbn [append lastIndexOf_from String.length]. rewrite IH. lia.
Qed.

Lemma lastIndexOf_absent c s : occurs c s = false -> lastIndexOf s c = (-1)%Z.
Proof. apply lastIndexOf_from_free. Qed.

Lemma lastIndexOf_decomposed c a b :
  occurs c b = false ->
  lastIndexOf (a ++ String c b)%string c = Z.of_nat (String.length a).
Proof.
  intros H. unfold lastIndexOf. now rewrite lastIndexOf_from_decomposed.
Qed.

Lemma substring_whole n s : String.substring 0 (String.length s + n) s = s.
Proof.
  induction s as [|a r IH]; simpl.
  - now destruct n.
  - now rewrite IH.
Qed.

Lemma substring_head a t :
  String.substring 0 (String.length a) (a ++ t)%string = a.
Proof.
  induction a as [|x a' IH]; simpl.
  - now destruct t.
  - now rewrite IH.
Qed.

Lemma substring_skip a t n :
  String.substring (String.length a) n (a ++ t)%string
  = String.substring 0 n t.
Proof.
  induction a as [|x a' IH]; simpl; [reflexivity | apply IH].
Qed.

Lemma length_app a b :
  String.length (a ++ b)%string = String.length a + String.length b.
Proof. induction a; simpl; congruence. Qed.

Lemma app_assoc_str a b c :
  ((a ++ b) ++ c)%string = (a ++ (b ++ c))%string.
Proof. induction a; simpl; congruence. Qed.

Lemma substring_before c a b :
  substring (a ++ String c b)%string 0 (Z.of_nat (String.length a)) = a.
Proof.
  unfold substring. rewrite Nat2Z.id. simpl Z.to_nat.
  rewrite Nat.sub_0_r. apply substring_head.
Qed.

Lemma substring_after c a b :
  substring_from (a ++ String c b)%string (Z.of_nat (String.length a) + 1) = b.
Proof.
  unfold substring_from.
  replace (Z.to_nat (Z.of_nat (String.length a) + 1))
    with (String.length (a ++ String c EmptyString)%string)
    by (rewrite length_app; simpl; lia).
  replace (a ++ String c b)%string
    with ((a ++ String c EmptyString) ++ b)%string
    by (now rewrite app_assoc_str).
  rewrite substring_skip, length_app.
  replace (String.length (a ++ String c EmptyString) + String.length b
           - String.length (a ++ String c EmptyString))
    with (String.length b + 0) by lia.
  apply substring_whole.
Qed.

(** [startsWith] is the literal prefix test. *)
Lemma startsWith_iff s pre :
  startsWith s pre = true <-> exists rest, s = (pre ++ rest)%string.
Proof.
  unfold startsWith. revert s.
  induction pre as [|a p IH]; intros s; simpl.
  - destruct s; split; eauto.
  - destruct s as [|b r].
    + split; [discriminate | intros [rest H]; discriminate].
    + simpl. destruct (ascii_dec a b) as [->|N].
      * rewrite IH. split; intros [rest H]; exists rest; congruence.
      * split; [discriminate | intros [rest H]; congruence].
Qed.

Lemma startsWith_app s t c :
  s <> EmptyString ->
  startsWith (s ++ t)%string (String c EmptyString)
  = startsWith s (String c EmptyString).
Proof.
  destruct s as [|a r]; [congruence|]. intros _.
  unfold startsWith. simpl.
  destruct (ascii_dec c a); [|reflexivity].
  destruct (r ++ t)%string; destruct r; reflexivity.
Qed.

End JsFacts.

Import JsFacts.

(** * Fuel

    A loop that finishes within some fuel gives the same result with
    more: the fuel only bounds the runs, it does not shape them. *)

Section Fuel.

Variable v : VirtualFileSystem.

Lemma getPwd_loop_more_fuel fuel :
  forall current path result,
    getPwd_loop v fuel current path = Some result ->
    getPwd_loop v (S fuel) current path = Some result.
Proof.
  induction fuel as [|fuel IH]; intros current path result; [discriminate|].
  intros H. cbn [getPwd_loop] in *.
  destruct current as [c|]; [|assumption].
  destruct (Nat.eqb c (root v)); [assumption|].
  now apply IH.
Qed.

Lemma for_of_ext {A S : Type} (l : list A) (f g : A -> S -> option S) :
  (forall x s s', f x s = Some s' -> g x s = Some s') ->
  forall s s', for_of l f s = Some s' -> for_of l g s = Some s'.
Proof.
  intros E. induction l as [|x l IH]; intros s s'; simpl; [trivial|].
  destruct (f x s) as [s1|] eqn:F; [|discriminate].
  rewrite (E _ _ _ F). apply IH.
Qed.

Lemma traverse_more_fuel fuel :
  forall node currentPath results out,
    traverse v fuel node currentPath results = Some out ->
    traverse v (S fuel) node currentPath results = Some out.
Proof.
  induction fuel as [|fuel IH]; intros node currentPath results out;
    [discriminate|].
  intros H. cbn [traverse] in *.
  destruct (type (deref (heap v) node)); [assumption|].
  destruct (children (deref (heap v) node)) as [ks|]; [|assumption].
  revert H. apply for_of_ext. intros child s s'. apply IH.
Qed.

End Fuel.

(** * The constructed tree *)

Lemma constructor_returns : constructor = Some initial.
Proof. vm_compute. reflexivity. Qed.

(** Three levels of recursion are all [setParents] needs: more fuel does
    not change the heap it leaves. *)
Lemma constructor_fuel k :
  createInitialFileSystem (3 + k) [] = Some (root initial, heap initial).
Proof. vm_compute. reflexivity. Qed.

Lemma initial_directories n :
  type (deref (heap initial) n) = directory -> In n [0; 6; 9; 11].
Proof.
  intros T.
  do 12 (destruct n as [|n]; [vm_compute in T; try discriminate; simpl; tauto|]).
  vm_compute in T. destruct n; discriminate.
Qed.

(** The heap and the root never change, and the current directory is one
    of the four directories of the tree. *)
Lemma reachable_shape v :
  reachable v ->
  heap v = heap initial /\ root v = root initial /\
  In (currentDir v) [0; 6; 9; 11].
Proof.
  induction 1 as [v Hc | v path Hv (Hh & Hr & Hcur)].
  - rewrite constructor_returns in Hc. injection Hc as <-.
    vm_compute. tauto.
  - unfold cd.
    destruct (negb (Js.truthy path) || String.eqb path "~").
    + simpl. rewrite Hr. vm_compute. tauto.
    + destruct (resolvePath v path) as [node|]; [|simpl; tauto].
      destruct (type (deref (heap v) node)) eqn:T; simpl; [tauto|].
      rewrite Hh in T. split; [assumption|]. split; [assumption|].
      now apply initial_directories.
Qed.

(** A reachable object is one of four records. *)
Lemma reachable_cases v :
  reachable v ->
  exists c, In c [0; 6; 9; 11] /\ v = mkVFS (heap initial) (root initial) c.
Proof.
  intros R. destruct (reachable_shape v R) as (Hh & Hr & Hc).
  exists (currentDir v). split; [assumption|].
  destruct v; simpl in *; congruence.
Qed.

Lemma reachable_root_parent v :
  reachable v -> parent (deref (heap v) (root v)) = None.
Proof.
  intros R. destruct (reachable_shape v R) as (-> & -> & _). reflexivity.
Qed.

Lemma reachable_currentDir_directory v :
  reachable v -> type (deref (heap v) (currentDir v)) = directory.
Proof.
  intros R. destruct (reachable_shape v R) as (-> & _ & Hc).
  simpl in Hc. repeat destruct Hc as [<- | Hc]; try reflexivity. contradiction.
Qed.

(** * Path resolution *)

Section Resolution.

Variable v : VirtualFileSystem.

Lemma Up_parent_or_root n : Up v n (parent_or_root v n).
Proof.
  unfold parent_or_root.
  destruct (parent (deref (heap v) n)) eqn:P; now constructor.
Qed.

Lemma Up_functional n m : Up v n m -> m = parent_or_root v n.
Proof. unfold parent_or_root. destruct 1 as [n p E | n E]; now rewrite E. Qed.

Lemma find_first_named ks seg :
  match List.find (fun child => String.eqb (name (deref (heap v) child)) seg) ks
  with
  | Some k => first_named v ks seg k
  | None => Forall (fun j => ~ named v seg j) ks
  end.
Proof.
  induction ks as [|j ks IH]; simpl; [constructor|].
  destruct (String.eqb_spec (name (deref (heap v) j)) seg) as [E|N].
  - exists [], ks. repeat split; [assumption | constructor].
  - destruct (List.find _ ks) as [k|].
    + destruct IH as (before & after & -> & Hk & Hb).
      exists (j :: before), after. repeat split; [assumption|].
      now constructor.
    + now constructor.
Qed.

Lemma first_named_find ks seg k :
  first_named v ks seg k ->
  List.find (fun child => String.eqb (name (deref (heap v) child)) seg) ks
  = Some k.
Proof.
  intros (before & after & -> & Hk & Hb).
  induction Hb as [|j before Hj Hb IH]; simpl.
  - unfold named in Hk. now rewrite Hk, String.eqb_refl.
  - apply String.eqb_neq in Hj. now rewrite Hj.
Qed.

Lemma first_named_In ks seg k : first_named v ks seg k -> In k ks /\ named v seg k.
Proof.
  intros (before & after & -> & Hk & _). split; [|assumption].
  apply in_or_app. right. now left.
Qed.

(** The loop of the source computes the walk of the specification ... *)
Lemma resolve_loop_Walk parts :
  forall n, Walk v n parts (resolve_loop v parts n).
Proof.
  induction parts as [|part rest IH]; intros n; simpl.
  - constructor.
  - destruct (String.eqb_spec part "..") as [->|N].
    + eapply Walk_up; [apply Up_parent_or_root | apply IH].
    + destruct (type (deref (heap v) n)) eqn:T.
      * apply Walk_not_found; [assumption|].
        intros (ks & k & T' & _). congruence.
      * destruct (children (deref (heap v) n)) as [ks|] eqn:C.
        -- pose proof (find_first_named ks part) as F.
           destruct (List.find _ ks) as [k|].
           ++ eapply Walk_down; eauto.
           ++ apply Walk_not_found; [assumption|].
              intros (ks' & k & _ & C' & Hin & Hk).
              rewrite C in C'. injection C' as <-.
              rewrite Forall_forall in F. exact (F k Hin Hk).
        -- apply Walk_not_found; [assumption|].
           intros (ks & k & _ & C' & _). congruence.
Qed.

(** ... and the walk has no other outcome. *)
Lemma Walk_resolve_loop n parts r :
  Walk v n parts r -> resolve_loop v parts n = r.
Proof.
  induction 1 as [n | n m rest r U _ IH | n seg rest ks k r N T C F _ IH
                  | n seg rest N A]; simpl.
  - reflexivity.
  - now rewrite <- (Up_functional _ _ U).
  - apply String.eqb_neq in N. rewrite N, T, C.
    now rewrite (first_named_find _ _ _ F).
  - apply String.eqb_neq in N. rewrite N.
    destruct (type (deref (heap v) n)) eqn:T; [reflexivity|].
    destruct (children (deref (heap v) n)) as [ks|] eqn:C; [|reflexivity].
    pose proof (find_first_named ks seg) as F.
    destruct (List.find _ ks) as [k|]; [|reflexivity].
    exfalso. apply A. exists ks, k.
    destruct (first_named_In _ _ _ F). auto.
Qed.

Lemma resolve_loop_app a b n :
  resolve_loop v (a ++ b) n
  = match resolve_loop v a n with
    | Some m => resolve_loop v b m
    | None => None
    end.
Proof.
  revert n. induction a as [|part rest IH]; intros n; simpl; [reflexivity|].
  destruct (String.eqb part ".."); [apply IH|].
  destruct (type (deref (heap v) n)); [reflexivity|].
  destruct (children (deref (heap v) n)) as [ks|]; [|reflexivity].
  destruct (List.find _ ks); [apply IH | reflexivity].
Qed.

(** Apart from ["~"], the literals of the first three tests resolve to
    what the general walk gives them. *)
Lemma resolvePath_general path :
  path <> "~" ->
  resolvePath v path = resolve_loop v (path_parts path) (start_of v path).
Proof.
  intros N. unfold resolvePath, start_of.
  destruct (String.eqb_spec path "/") as [->|N1]; [reflexivity|].
  destruct (String.eqb_spec path "~") as [->|N2]; [congruence|].
  destruct (String.eqb_spec path ".") as [->|N3]; [reflexivity|].
  destruct (String.eqb_spec path "..") as [->|N4]; reflexivity.
Qed.

Lemma resolvePath_walk path :
  path <> "/" -> path <> "~" -> path <> "." -> path <> ".." ->
  resolvePath v path = resolve_loop v (path_parts path) (start_of v path).
Proof. intros _ N _ _. now apply resolvePath_general. Qed.

End Resolution.

(** * The resolution algorithm of the specification *)

Lemma split_of_join c l :
  l <> [] -> Forall (fun x => occurs c x = false) l ->
  Js.split c (Js.join (String c EmptyString) l) = l.
Proof.
  induction l as [|x l IH]; [congruence|]. intros _ F.
  inversion F as [|? ? Hx Hl]; subst.
  destruct l as [|y l'].
  - simpl. now apply split_free_id.
  - rewrite join_cons by discriminate.
    change (x ++ String c EmptyString ++ Js.join (String c EmptyString) (y :: l'))%string
      with (x ++ String c (Js.join (String c EmptyString) (y :: l')))%string.
    rewrite split_app_sep, (split_free_id _ _ Hx), IH by (assumption || discriminate).
    reflexivity.
Qed.

(** The decomposition exists and is the one [split] computes. *)
Lemma pieces_of_split p : pieces_of p (Js.split "/"%char p).
Proof.
  repeat split; [apply split_not_nil | apply split_free | apply join_split].
Qed.

Lemma pieces_of_unique p pieces :
  pieces_of p pieces -> pieces = Js.split "/"%char p.
Proof.
  intros (N & F & <-). symmetry. now apply split_of_join.
Qed.

Lemma path_parts_pieces p pieces :
  pieces_of p pieces -> path_parts p = filter kept pieces.
Proof.
  intros H. rewrite (pieces_of_unique _ _ H). reflexivity.
Qed.

Lemma begins_with_slash_iff p :
  Js.startsWith p "/" = true <-> begins_with_slash p.
Proof. apply startsWith_iff. Qed.

(** C1.  [resolvePath] follows the algorithm of the specification: the
    literals ["/"] and ["~"] give the root whatever the current directory
    is, ["."] gives the current directory, [".."] gives its parent, or
    the root when it has none, which is the current directory itself when
    that is the root; every other expression is cut at its slashes, the
    empty pieces and the bare dots are dropped, and the remaining
    segments are walked from the root exactly when the expression begins
    with a slash and from the current directory otherwise.  The walk
    moves up on [".."], moves down on a name into the first child of the
    standing directory that carries it, and answers not-found (a value,
    not an exception) when the standing node is no directory or has no
    such child; its outcome is the result, and the only possible one. *)
Theorem resolvePath_algorithm (v : VirtualFileSystem) (p : string) :
  (p = "/" \/ p = "~" -> resolvePath v p = Some (root v)) /\
  (p = "." -> resolvePath v p = Some (currentDir v)) /\
  (p = ".." ->
     (exists m, Up v (currentDir v) m /\ resolvePath v p = Some m) /\
     (currentDir v = root v -> parent (deref (heap v) (root v)) = None ->
      resolvePath v p = Some (currentDir v))) /\
  (p <> "/" -> p <> "~" -> p <> "." -> p <> ".." ->
   forall pieces, pieces_of p pieces ->
     exists start,
       ((begins_with_slash p /\ start = root v) \/
        (~ begins_with_slash p /\ start = currentDir v)) /\
       Walk v start (filter kept pieces) (resolvePath v p) /\
       (forall r, Walk v start (filter kept pieces) r -> r = resolvePath v p)).
Proof.
  repeat split.
  - intros [-> | ->]; reflexivity.
  - intros ->; reflexivity.
  - subst p. exists (parent_or_root v (currentDir v)).
    split; [apply Up_parent_or_root | reflexivity].
  - subst p. intros E P. unfold resolvePath; simpl.
    unfold parent_or_root. rewrite E, P. reflexivity.
  - intros N1 N2 N3 N4 pieces Hp.
    exists (start_of v p).
    rewrite resolvePath_walk by assumption.
    rewrite <- (path_parts_pieces _ _ Hp).
    split; [|split].
    + unfold start_of.
      destruct (Js.startsWith p "/") eqn:S.
      * left. split; [now apply begins_with_slash_iff | reflexivity].
      * right. split; [|reflexivity].
        intros B. apply begins_with_slash_iff in B. congruence.
    + apply resolve_loop_Walk.
    + intros r W. symmetry. now apply Walk_resolve_loop.
Qed.

(** The segments of [P + "/.."] are those of [P] followed by [".."]. *)
Lemma path_parts_dotdot P :
  path_parts (P ++ "/..")%string = path_parts P ++ [".."].
Proof.
  unfold path_parts.
  change (P ++ "/..")%string with (P ++ String "/"%char "..")%string.
  rewrite split_app_sep, filter_app. reflexivity.
Qed.

Lemma resolvePath_dotdot_suffix v P :
  P <> "" -> P <> "~" ->
  resolvePath v (P ++ "/..")%string
  = match resolvePath v P with
    | Some n => Some (parent_or_root v n)
    | None => None
    end.
Proof.
  intros N1 N2.
  assert (N3 : (P ++ "/..")%string <> "~").
  { destruct P as [|a [|b r]]; simpl; congruence. }
  rewrite (resolvePath_general v _ N3), (resolvePath_general v _ N2).
  rewrite path_parts_dotdot, resolve_loop_app.
  unfold start_of.
  change "/" with (String "/"%char EmptyString).
  rewrite startsWith_app by assumption.
  destruct (resolve_loop v (path_parts P) _); reflexivity.
Qed.

(** C10.  When [P] resolves to a file [f] whose parent is [d], the
    expression [P + "/.."] resolves to [d]: the step up is taken before
    the standing node is required to be a directory. *)
Theorem dotdot_after_file (v : VirtualFileSystem) :
  reachable v ->
  forall P f d,
    resolvePath v P = Some f ->
    type (deref (heap v) f) = file ->
    parent (deref (heap v) f) = Some d ->
    resolvePath v (P ++ "/..")%string = Some d.
Proof.
  intros R P f d HP T Hd.
  assert (N1 : P <> "").
  { intros ->. unfold resolvePath in HP; simpl in HP.
    injection HP as <-. rewrite (reachable_currentDir_directory v R) in T.
    discriminate. }
  assert (N2 : P <> "~").
  { intros ->. unfold resolvePath in HP; simpl in HP.
    injection HP as <-.
    destruct (reachable_shape v R) as (Hh & Hr & _).
    rewrite Hh, Hr in T. discriminate. }
  rewrite resolvePath_dotdot_suffix, HP by assumption.
  unfold parent_or_root. now rewrite Hd.
Qed.

(** C2.  [cd] with the empty path or ["~"] resets the current directory
    to the root and returns the empty string.  For any other path: when
    it does not resolve, or resolves to a file, the matching message is
    returned and the object is left exactly as it was; only when it
    resolves to a directory is the current directory reassigned, to that
    node, with the empty string returned. *)
Theorem cd_behaviour (v : VirtualFileSystem) (path : string) :
  (path = "" \/ path = "~" ->
   cd v path = ("", mkVFS (heap v) (root v) (root v))) /\
  (path <> "" -> path <> "~" ->
   (resolvePath v path = None ->
    cd v path
    = (("cd: " ++ path ++ ": No such file or directory")%string, v)) /\
   (forall n, resolvePath v path = Some n ->
      type (deref (heap v) n) = file ->
      cd v path = (("cd: " ++ path ++ ": Not a directory")%string, v)) /\
   (forall n, resolvePath v path = Some n ->
      type (deref (heap v) n) = directory ->
      cd v path = ("", mkVFS (heap v) (root v) n))).
Proof.
  split.
  - intros [-> | ->]; reflexivity.
  - intros N1 N2. unfold cd, Js.truthy.
    apply String.eqb_neq in N1. apply String.eqb_neq in N2.
    rewrite N1, N2. simpl.
    split; [|split].
    + intros ->. reflexivity.
    + intros n -> ->. reflexivity.
    + intros n -> ->. reflexivity.
Qed.

(** C5.  [cat] without arguments reports a missing operand; otherwise
    its first argument is resolved: not found and directory each give
    their own message naming the path (for a directory, nothing of its
    children), and a file gives its content as it is, the empty string
    when it has none. *)
Theorem cat_behaviour (v : VirtualFileSystem) :
  cat v [] = "cat: missing operand" /\
  forall path more,
    (resolvePath v path = None ->
     cat v (path :: more)
     = ("cat: " ++ path ++ ": No such file or directory")%string) /\
    (forall n, resolvePath v path = Some n ->
       type (deref (heap v) n) = directory ->
       cat v (path :: more) = ("cat: " ++ path ++ ": Is a directory")%string) /\
    (forall n, resolvePath v path = Some n ->
       type (deref (heap v) n) = file ->
       (forall c, content (deref (heap v) n) = Some c ->
                  cat v (path :: more) = c) /\
       (content (deref (heap v) n) = None -> cat v (path :: more) = "")).
Proof.
  split; [reflexivity|].
  intros path more. unfold cat. split; [|split].
  - intros ->. reflexivity.
  - intros n -> ->. reflexivity.
  - intros n -> ->. split.
    + intros c ->. reflexivity.
    + intros ->. reflexivity.
Qed.

(** * Listing *)

Lemma includes_iff l x : Js.includes l x = true <-> In x l.
Proof.
  unfold Js.includes. rewrite existsb_exists. split.
  - intros (y & Hy & E). apply String.eqb_eq in E. now subst.
  - intros H. exists x. split; [assumption | apply String.eqb_refl].
Qed.

Lemma long_requested_iff args :
  Js.includes args "-la" || Js.includes args "-l" || Js.includes args "-al"
  = true <-> long_requested args.
Proof.
  unfold long_requested. rewrite Exists_exists, !orb_true_iff, !includes_iff.
  split.
  - intros [[H | H] | H]; eexists; (split; [exact H|]); auto.
  - intros (a & Ha & [-> | [-> | ->]]); auto.
Qed.

(** On ASCII text the code units are the bytes. *)
Lemma length_utf16_ascii s :
  ascii_only s = true -> Js.length_utf16 s = String.length s.
Proof.
  induction s as [|a r IH]; [reflexivity|].
  destruct a as [b0 b1 b2 b3 b4 b5 b6 b7]. cbn [ascii_only].
  intros H. apply andb_true_iff in H as [H7 Hr].
  cbn [Js.length_utf16 Js.code_units String.length].
  rewrite H7, (IH Hr). reflexivity.
Qed.

Lemma long_line_entry v k : content_by_kind v k -> long_line v k = long_entry v k.
Proof.
  unfold content_by_kind, long_line, long_entry, listed_size.
  destruct (type (deref (heap v) k)).
  - intros (c & -> & N & A). apply String.eqb_neq in N.
    unfold Js.truthy. now rewrite N, (length_utf16_ascii _ A).
  - intros ->. reflexivity.
Qed.

Lemma reachable_children_content v n ks :
  reachable v ->
  children (deref (heap v) n) = Some ks -> Forall (content_by_kind v) ks.
Proof.
  intros R C. destruct (reachable_shape v R) as (Hh & _ & _).
  unfold content_by_kind. rewrite Hh in *. clear R Hh.
  do 12 (destruct n as [|n];
         [vm_compute in C; try discriminate; injection C as <-;
          repeat constructor; vm_compute; try reflexivity;
          eexists;
          (split; [reflexivity | split; [discriminate | reflexivity]])|]).
  vm_compute in C. destruct n; discriminate.
Qed.

(** C4, as worded, fails on the long format: the size does not stand
    between single spaces, it is padded on the left to five columns. *)
Lemma ls_long_size_padding_counterexample :
  ls initial ["secrets"; "-l"]
  = "-rwxr-xr-x 1 root root    24 Nov 19 10:00 passwords.txt" /\
  Js.join Js.crlf (map (worded_long_entry initial) [10])
  = "-rwxr-xr-x 1 root root 24 Nov 19 10:00 passwords.txt" /\
  ls initial ["secrets"; "-l"]
  <> Js.join Js.crlf (map (worded_long_entry initial) [10]).
Proof. vm_compute. repeat split. discriminate. Qed.

(** C4, amended.  [ls] resolves its target.  Not found gives the error
    naming the target; a file gives its own name; a directory without
    children gives the empty string; otherwise the children are rendered
    in stored order, in the short format as their listed names joined by
    two spaces, and in the long format one line per child, made of the
    type character, the fixed permissions, [1 root root], the size
    column (the byte length of a file's content, 4096 for a directory,
    in decimal and padded on the left with spaces to five columns), the
    fixed date and the name, the lines separated by CR LF.  The long
    format is proved on every reachable state, and on every heap whose
    files hold non-empty ASCII content and whose directories hold
    none. *)
Theorem ls_behaviour (v : VirtualFileSystem) (args : list string) :
  let target := first_or_dot args in
  (resolvePath v target = None ->
   ls v args
   = ("ls: cannot access '" ++ target ++ "': No such file or directory")%string)
  /\
  (forall n, resolvePath v target = Some n ->
     (type (deref (heap v) n) = file -> ls v args = name (deref (heap v) n)) /\
     (type (deref (heap v) n) = directory ->
        (children (deref (heap v) n) = None \/
         children (deref (heap v) n) = Some [] -> ls v args = "") /\
        (forall ks, children (deref (heap v) n) = Some ks -> ks <> [] ->
           (~ long_requested args ->
            ls v args = Js.join "  " (map (listed_name v) ks)) /\
           (long_requested args ->
            reachable v \/ Forall (content_by_kind v) ks ->
            ls v args = Js.join Js.crlf (map (long_entry v) ks))))).
Proof.
  intros target. unfold ls. fold target. split.
  - intros ->. reflexivity.
  - intros n ->. split; [intros ->; reflexivity|].
    intros ->. split.
    + intros [-> | ->]; reflexivity.
    + intros ks C N.
      assert (K : reachable v \/ Forall (content_by_kind v) ks ->
                  Forall (content_by_kind v) ks).
      { intros [R | F]; [|exact F].
        exact (reachable_children_content v n ks R C). }
      rewrite C. destruct ks as [|k ks]; [congruence|].
      pose proof (long_requested_iff args) as L.
      destruct (Js.includes args "-la" || Js.includes args "-l"
                || Js.includes args "-al").
      * split; [intros NL; exfalso; apply NL; now apply L|].
        intros _ F. apply K in F. f_equal. apply map_ext_in.
        intros j Hj. apply long_line_entry.
        rewrite Forall_forall in F. now apply F.
      * split; [reflexivity|].
        intros HL. apply L in HL. discriminate.
Qed.

(** C8.  With flags only, the first flag is taken for the target: the
    listing is an error, where the same flag after a path lists in the
    long format. *)
Theorem ls_flag_taken_for_target :
  ls initial ["-l"] = "ls: cannot access '-l': No such file or directory" /\
  ls initial ["-la"] = "ls: cannot access '-la': No such file or directory" /\
  ls initial ["."; "-l"] = Js.join Js.crlf (map (long_entry initial)
                                               [1; 2; 3; 6; 9; 11]).
Proof. vm_compute. repeat split. Qed.

(** * Line endings *)

(** C9.  [cat] returns the content as it is stored, and the stored
    content of [secrets/passwords.txt] separates its two lines by a bare
    line feed, unlike [README.txt] and unlike the lines [ls] and [find]
    join themselves. *)
Theorem cat_bare_line_feed :
  cat initial ["secrets/passwords.txt"]
  = ("admin:admin123" ++ String Js.LF "root:toor")%string /\
  crlf_only (cat initial ["secrets/passwords.txt"]) = false /\
  crlf_only (cat initial ["README.txt"]) = true /\
  crlf_only (ls initial ["/"; "-l"]) = true /\
  option_map crlf_only (find initial "/") = Some true.
Proof. vm_compute. repeat split. Qed.

(** * Completion *)

Lemma completion_lookup v searchPath partialName :
  match resolvePath v searchPath with
  | None => []
  | Some dirNode =>
      match type (deref (heap v) dirNode), children (deref (heap v) dirNode) with
      | directory, Some ks =>
          map (short_entry v)
              (filter (fun child =>
                         Js.startsWith (name (deref (heap v) child)) partialName)
                      ks)
      | _, _ => []
      end
  end = suggestions v (resolvePath v searchPath) partialName.
Proof.
  unfold suggestions. destruct (resolvePath v searchPath) as [d|]; [|reflexivity].
  destruct (type (deref (heap v) d)); [reflexivity|].
  destruct (children (deref (heap v) d)); reflexivity.
Qed.

(** The last space-delimited token is determined by the input. *)
Lemma last_token_unique input tok :
  (input = tok \/ exists before, input = (before ++ " " ++ tok)%string) ->
  occurs " "%char tok = false ->
  tok = Js.last_token (Js.split " "%char input).
Proof.
  intros [-> | (before & ->)] F; unfold Js.last_token.
  - now rewrite (split_free_id _ _ F).
  - change (before ++ " " ++ tok)%string
      with (before ++ String " "%char tok)%string.
    rewrite split_app_sep, (split_free_id _ _ F).
    symmetry. apply last_last.
Qed.

(** C7.  The token completed is the last space-delimited one: the input
    itself when it has no space, otherwise what follows its last space.
    A token without slash is matched against the current directory; a
    token [dir/partial], cut at its last slash, is matched in the
    directory [dir] resolves to, the root when [dir] is empty.  The
    result is [suggestions]: empty when the directory is not found or is
    a file, and otherwise the children with the partial name as a
    literal prefix, in stored order, directories with a trailing slash. *)
Theorem getCompletions_behaviour (v : VirtualFileSystem) (input : string) :
  exists tok,
    (input = tok \/ exists before, input = (before ++ " " ++ tok)%string) /\
    occurs " "%char tok = false /\
    (occurs "/"%char tok = false ->
     getCompletions v input = suggestions v (Some (currentDir v)) tok) /\
    (forall dir partial,
        tok = (dir ++ "/" ++ partial)%string ->
        occurs "/"%char partial = false ->
        getCompletions v input
        = suggestions v
            (if String.eqb dir "" then Some (root v) else resolvePath v dir)
            partial).
Proof.
  exists (Js.last_token (Js.split " "%char input)).
  set (tok := Js.last_token (Js.split " "%char input)).
  split; [|split; [|split]].
  - destruct (occurs " "%char input) eqn:O.
    + right. destruct (split_last_after _ _ O) as [q Hq]. now exists q.
    + left. unfold tok. now rewrite (split_free_id _ _ O).
  - apply last_token_free.
  - intros F. unfold getCompletions. cbv zeta. fold tok.
    rewrite (lastIndexOf_absent _ _ F). cbn [Z.eqb negb].
    apply (completion_lookup v "." tok).
  - intros dir partial E F. unfold getCompletions. cbv zeta. fold tok.
    change (dir ++ "/" ++ partial)%string
      with (dir ++ String "/"%char partial)%string in E.
    rewrite E, (lastIndexOf_decomposed _ _ _ F).
    rewrite substring_before, substring_after.
    destruct (Z.eqb_spec (Z.of_nat (String.length dir)) (-1)) as [A|_]; [lia|].
    cbn [negb]. unfold Js.truthy.
    destruct (String.eqb dir ""); cbn [negb].
    + apply (completion_lookup v "/" partial).
    + apply completion_lookup.
Qed.

(** * Changing directory and printing it *)

Lemma normalize_cons stack seg segs :
  normalize stack (seg :: segs)
  = normalize (if String.eqb seg ".." then removelast stack else stack ++ [seg])
              segs.
Proof. reflexivity. Qed.

(** ** The walk against the names collected by [getPwd]'s loop *)

Section WalkNames.

Variable v : VirtualFileSystem.

Hypothesis up_names :
  forall n pn,
    names_to v n = Some pn ->
    names_to v (parent_or_root v n) = Some (removelast pn).

Hypothesis down_names :
  forall n pn ks k,
    names_to v n = Some pn ->
    type (deref (heap v) n) = directory ->
    children (deref (heap v) n) = Some ks ->
    In k ks ->
    names_to v k = Some (pn ++ [name (deref (heap v) k)]).

Lemma resolve_loop_names parts :
  forall n pn m,
    names_to v n = Some pn ->
    resolve_loop v parts n = Some m ->
    names_to v m = Some (normalize pn parts).
Proof.
  induction parts as [|part rest IH]; intros n pn m Hn; cbn [resolve_loop].
  - intros E. injection E as <-. assumption.
  - destruct (String.eqb part "..") eqn:D.
    + intros W. rewrite normalize_cons, D.
      exact (IH _ _ _ (up_names _ _ Hn) W).
    + destruct (type (deref (heap v) n)) eqn:T; [discriminate|].
      destruct (children (deref (heap v) n)) as [ks|] eqn:C; [|discriminate].
      pose proof (find_first_named v ks part) as F.
      destruct (List.find _ ks) as [k|]; [|discriminate].
      destruct (first_named_In _ _ _ _ F) as [Hin Hk].
      intros W. rewrite normalize_cons, D.
      unfold named in Hk. rewrite <- Hk.
      exact (IH _ _ _ (down_names _ _ _ _ Hn T C Hin) W).
Qed.

End WalkNames.

(** ** The two hypotheses on the constructed tree *)

Lemma initial_up_names c n pn :
  names_to (mkVFS (heap initial) (root initial) c) n = Some pn ->
  names_to (mkVFS (heap initial) (root initial) c)
           (parent_or_root (mkVFS (heap initial) (root initial) c) n)
  = Some (removelast pn).
Proof.
  do 13 (destruct n as [|n];
         [vm_compute; intros E; injection E as <-; reflexivity|]).
  vm_compute; intros E; injection E as <-; reflexivity.
Qed.

Lemma initial_down_names c n pn ks k :
  names_to (mkVFS (heap initial) (root initial) c) n = Some pn ->
  type (deref (heap initial) n) = directory ->
  children (deref (heap initial) n) = Some ks ->
  In k ks ->
  names_to (mkVFS (heap initial) (root initial) c) k
  = Some (pn ++ [name (deref (heap initial) k)]).
Proof.
  intros Hn T C Hin.
  do 12 (destruct n as [|n];
         [vm_compute in T; try discriminate;
          vm_compute in C; injection C as <-;
          vm_compute in Hn; injection Hn as <-;
          simpl in Hin;
          repeat (destruct Hin as [<- | Hin]; [vm_compute; reflexivity|]);
          contradiction|]).
  vm_compute in T. destruct n; discriminate.
Qed.

Lemma initial_root_names c :
  names_to (mkVFS (heap initial) (root initial) c) (root initial) = Some [].
Proof. reflexivity. Qed.

(** What [getPwd] prints splits back into the names it was made of. *)
Lemma reachable_pwd_segments c :
  In c [0; 6; 9; 11] ->
  exists pc,
    names_to (mkVFS (heap initial) (root initial) c) c = Some pc /\
    segments (render_path pc) = pc.
Proof.
  simpl. intros H.
  repeat (destruct H as [<- | H];
          [eexists; split; vm_compute; reflexivity|]).
  contradiction.
Qed.

Lemma cd_success v p n :
  p <> "" ->
  resolvePath v p = Some n ->
  type (deref (heap v) n) = directory ->
  cd v p = ("", mkVFS (heap v) (root v) n).
Proof.
  intros N R T.
  unfold cd, Js.truthy.
  apply String.eqb_neq in N. rewrite N. cbn [negb orb].
  destruct (String.eqb_spec p "~") as [->|N2].
  - unfold resolvePath in R; simpl in R. injection R as <-. reflexivity.
  - now rewrite R, T.
Qed.

(** C3.  From every reachable state: after [cd p], for a valid
    directory path [p], [getPwd] prints the absolute form of [p]; and
    [cd] to what [getPwd] prints succeeds and leaves the object as it
    was.  In both cases [getPwd]'s loop finishes. *)
Theorem cd_pwd_round_trip (v : VirtualFileSystem) :
  reachable v ->
  (forall p, valid_directory_path v p ->
     exists cwd,
       getPwd v = Some cwd /\
       fst (cd v p) = "" /\
       getPwd (snd (cd v p)) = Some (absolute_form cwd p)) /\
  (exists cwd, getPwd v = Some cwd /\ cd v cwd = ("", v)).
Proof.
  intros R. destruct (reachable_cases v R) as (c & Hc & ->). split.
  - intros p (N & n & Hn & T).
    destruct (reachable_pwd_segments c Hc) as (pc & Hpc & Hseg).
    exists (render_path pc).
    rewrite (cd_success _ _ _ N Hn T). cbn [fst snd heap root].
    split; [|split; [reflexivity|]].
    + unfold getPwd. cbn [currentDir]. now rewrite Hpc.
    + unfold getPwd. cbn [currentDir].
      change (names_to (mkVFS (heap initial) (root initial) n) n)
        with (names_to (mkVFS (heap initial) (root initial) c) n).
      unfold absolute_form.
      destruct (String.eqb_spec p "~") as [->|N2].
      * unfold resolvePath in Hn; simpl in Hn. injection Hn as <-.
        reflexivity.
      * rewrite (resolvePath_general _ _ N2) in Hn. unfold start_of in Hn.
        rewrite Hseg.
        assert (Hstart :
                  names_to (mkVFS (heap initial) (root initial) c)
                           (if Js.startsWith p "/"
                            then root (mkVFS (heap initial) (root initial) c)
                            else currentDir
                                   (mkVFS (heap initial) (root initial) c))
                  = Some (if Js.startsWith p "/" then [] else pc)).
        { destruct (Js.startsWith p "/"); [reflexivity | exact Hpc]. }
        rewrite (resolve_loop_names _ (initial_up_names c)
                   (initial_down_names c) _ _ _ _ Hstart Hn).
        reflexivity.
  - simpl in Hc.
    repeat (destruct Hc as [<- | Hc];
            [eexists; split; vm_compute; reflexivity|]).
    contradiction.
Qed.

(** The empty path, which [cd] does not send to the resolver, goes to
    the root from anywhere. *)
Lemma cd_empty_path v :
  reachable v -> getPwd (snd (cd v "")) = Some "/".
Proof.
  intros R. destruct (reachable_cases v R) as (c & _ & ->). reflexivity.
Qed.

(** * Recursive enumeration *)

Section Enumeration.

Variable v : VirtualFileSystem.

Lemma traverse_step fuel n p res :
  traverse v (S fuel) n p res
  = for_of (descend v n)
           (fun child => traverse v fuel child (child_path v p child))
           (res ++ [p]).
Proof.
  unfold descend. simpl.
  destruct (type (deref (heap v) n)); [reflexivity|].
  destruct (children (deref (heap v) n)); reflexivity.
Qed.

(** With fuel for the height of the subtree, [traverse] finishes and
    has pushed the display paths of a pre-order enumeration. *)
Lemma traverse_preorder d :
  forall fuel n p res,
    height_ok v d n = true -> d <= fuel ->
    exists visits,
      Preorder v n p visits /\
      map fst visits = nodes_under v d n /\
      traverse v fuel n p res = Some (res ++ map snd visits).
Proof.
  induction d as [|d IH]; intros fuel n p res H L; [discriminate|].
  destruct fuel as [|fuel]; [lia|].
  rewrite traverse_step. simpl in H. cbn [nodes_under].
  assert (B : forall ks acc,
             forallb (height_ok v d) ks = true ->
             exists below,
               Below v p ks below /\
               map fst below = flat_map (nodes_under v d) ks /\
               for_of ks
                 (fun child => traverse v fuel child (child_path v p child))
                 acc
               = Some (acc ++ map snd below)).
  { induction ks as [|k ks IHks]; intros acc Hks.
    - exists []. repeat split; [constructor | simpl; now rewrite app_nil_r].
    - simpl in Hks. apply andb_true_iff in Hks as [Hk Hks].
      destruct (IH fuel k (child_path v p k) acc Hk ltac:(lia))
        as (first & P1 & F1 & T1).
      destruct (IHks (acc ++ map snd first) Hks) as (others & P2 & F2 & T2).
      exists (first ++ others). split; [|split].
      + now constructor.
      + rewrite map_app, F1, F2. reflexivity.
      + simpl. rewrite T1, T2, map_app, app_assoc. reflexivity. }
  destruct (B (descend v n) (res ++ [p]) H) as (below & P & F & T).
  exists ((n, p) :: below). split; [|split].
  - now constructor.
  - simpl. now rewrite F.
  - rewrite T. simpl. now rewrite <- app_assoc.
Qed.

Lemma Under_trans a b c : Under v a b -> Under v b c -> Under v a c.
Proof.
  intros Hab Hbc. induction Hbc as [|n k _ IH Hk]; [assumption|].
  now apply Under_child with n.
Qed.

Lemma nodes_under_sound d :
  forall s m, In m (nodes_under v d s) -> Under v s m.
Proof.
  induction d as [|d IH]; intros s m; simpl.
  - intros [<- | []]. constructor.
  - intros [<- | H]; [constructor|].
    apply in_flat_map in H as (k & Hk & Hm).
    apply Under_trans with k; [|now apply IH].
    apply Under_child with s; [constructor | assumption].
Qed.

Lemma nodes_under_children d :
  forall s n k,
    height_ok v d s = true ->
    In n (nodes_under v d s) -> In k (descend v n) -> In k (nodes_under v d s).
Proof.
  induction d as [|d IH]; intros s n k H Hn Hk; [discriminate|].
  simpl in H. rewrite forallb_forall in H.
  cbn [nodes_under] in *. right. apply in_flat_map.
  destruct Hn as [<- | Hn].
  - exists k. split; [assumption|]. destruct d; now left.
  - apply in_flat_map in Hn as (j & Hj & Hn).
    exists j. split; [assumption|]. now apply IH with n; auto.
Qed.

Lemma nodes_under_complete d s m :
  height_ok v d s = true -> Under v s m -> In m (nodes_under v d s).
Proof.
  intros H U. induction U as [|n k _ IH Hk].
  - destruct d; now left.
  - now apply nodes_under_children with n.
Qed.

End Enumeration.

(** ** On the constructed tree *)

Lemma initial_height c n :
  height_ok (mkVFS (heap initial) (root initial) c) 3 n = true.
Proof.
  do 13 (destruct n as [|n]; [vm_compute; reflexivity|]).
  vm_compute. reflexivity.
Qed.

Lemma initial_nodes_under_NoDup c n :
  NoDup (nodes_under (mkVFS (heap initial) (root initial) c) 3 n).
Proof.
  do 13 (destruct n as [|n];
         [vm_compute;
          repeat (constructor; [simpl; intuition discriminate|]);
          constructor|]).
  vm_compute. repeat (constructor; [simpl; intuition discriminate|]).
  constructor.
Qed.

(** ** The enumeration as worded, and as it is *)

(** C6, as worded, fails on an absolute expression that is not in
    normal form: [find] shows the expression as supplied, not the
    rebuilt path. *)
Lemma find_absolute_display_counterexample :
  find initial "/exploits/"
  = Some ("/exploits/" ++ Js.crlf ++
          "/exploits//cve-2024-1337.py" ++ Js.crlf ++
          "/exploits//buffer_overflow.c")%string /\
  worded_find initial "/exploits/"
  = Some ("/exploits" ++ Js.crlf ++
          "/exploits/cve-2024-1337.py" ++ Js.crlf ++
          "/exploits/buffer_overflow.c")%string /\
  find initial "/exploits/" <> worded_find initial "/exploits/".
Proof. vm_compute. repeat split. discriminate. Qed.

(** Below the root the paths carry one slash, not two. *)
Lemma find_root_children_single_slash :
  option_map (fun s => Js.startsWith s ("/" ++ Js.crlf ++ "/README.txt"))
             (find initial "/") = Some true /\
  option_map (fun s => Js.startsWith s ("/" ++ Js.crlf ++ "//README.txt"))
             (worded_find initial "/") = Some true.
Proof. vm_compute. split; reflexivity. Qed.

(** C6, amended.  From every reachable state [find] finishes.  When the
    starting expression does not resolve, the result is the error naming
    it.  Otherwise the result is the display paths of a pre-order
    enumeration from the starting node, joined by CR LF: the starting
    node first, displayed as the expression supplied, whatever its form;
    then, for every directory, its children's subtrees in stored order,
    a child being displayed as its parent's recorded path, a slash and
    its name, with no second slash below a parent recorded as ["/"].
    The nodes enumerated are exactly those under the start, each once. *)
Theorem find_preorder (v : VirtualFileSystem) :
  reachable v ->
  forall path,
    (resolvePath v path = None ->
     find v path
     = Some ("find: '" ++ path ++ "': No such file or directory")%string) /\
    (forall start, resolvePath v path = Some start ->
       exists visits,
         Preorder v start path visits /\
         find v path = Some (Js.join Js.crlf (map snd visits)) /\
         NoDup (map fst visits) /\
         (forall m, In m (map fst visits) <-> Under v start m)).
Proof.
  intros R path. destruct (reachable_cases v R) as (c & _ & ->).
  set (v := mkVFS (heap initial) (root initial) c).
  split.
  - unfold find. intros ->. reflexivity.
  - intros start Hs.
    destruct (traverse_preorder v 3 (walk_fuel v) start path []
                (initial_height c start))
      as (visits & P & F & T).
    { apply Nat.leb_le. reflexivity. }
    exists visits. split; [assumption|]. split; [|split].
    + unfold find. rewrite Hs.
      replace (if String.eqb path "." then "." else path) with path
        by (destruct (String.eqb_spec path "."); congruence).
      now rewrite T.
    + rewrite F. apply initial_nodes_under_NoDup.
    + intros m. rewrite F. split.
      * apply nodes_under_sound.
      * apply nodes_under_complete, initial_height.
Qed.

(** * The theorems at concrete inputs *)

Lemma reachable_initial : reachable initial.
Proof. apply reach_new. exact constructor_returns. Qed.

Lemma reachable_in_exploits : reachable in_exploits.
Proof. apply reach_cd. exact reachable_initial. Qed.

Lemma resolvePath_algorithm_witness :
  resolvePath in_exploits "/" = Some 0 /\
  resolvePath in_exploits "~" = Some 0 /\
  resolvePath in_exploits "." = Some 6 /\
  resolvePath initial ".." = Some 0 /\
  pieces_of "./../tools//nmap" ["."; ".."; "tools"; ""; "nmap"] /\
  Walk in_exploits 6 [".."; "tools"; "nmap"] (Some 7) /\
  Walk in_exploits 0 ["tools"; "nmap"; "x"] None.
Proof.
  split; [|split; [|split; [|split; [|split; [|split]]]]].
  - destruct (resolvePath_algorithm in_exploits "/") as (A & _).
    exact (A (or_introl eq_refl)).
  - destruct (resolvePath_algorithm in_exploits "~") as (A & _).
    exact (A (or_intror eq_refl)).
  - destruct (resolvePath_algorithm in_exploits ".") as (_ & A & _).
    exact (A eq_refl).
  - destruct (resolvePath_algorithm initial "..") as (_ & _ & A & _).
    destruct (A eq_refl) as (_ & B).
    exact (B eq_refl eq_refl).
  - repeat split; [discriminate | repeat constructor].
  - destruct (resolvePath_algorithm in_exploits "./../tools//nmap")
      as (_ & _ & _ & A).
    destruct (A ltac:(discriminate) ltac:(discriminate) ltac:(discriminate)
                ltac:(discriminate) ["."; ".."; "tools"; ""; "nmap"])
      as (start & [[[rest B] _] | [_ E]] & W & _).
    + repeat split; [discriminate | repeat constructor].
    + discriminate B.
    + rewrite E in W. exact W.
  - destruct (resolvePath_algorithm in_exploits "/tools/nmap/x")
      as (_ & _ & _ & A).
    destruct (A ltac:(discriminate) ltac:(discriminate) ltac:(discriminate)
                ltac:(discriminate) [""; "tools"; "nmap"; "x"])
      as (start & [[_ E] | [NB _]] & W & _).
    + repeat split; [discriminate | repeat constructor].
    + rewrite E in W. exact W.
    + exfalso. apply NB. now exists "tools/nmap/x".
Defined.

Lemma dotdot_after_file_witness :
  reachable in_exploits /\
  resolvePath in_exploits "cve-2024-1337.py" = Some 4 /\
  type (deref (heap in_exploits) 4) = file /\
  parent (deref (heap in_exploits) 4) = Some 6 /\
  resolvePath in_exploits "cve-2024-1337.py/.." = Some 6.
Proof.
  split; [exact reachable_in_exploits|].
  split; [reflexivity|]. split; [reflexivity|]. split; [reflexivity|].
  exact (dotdot_after_file in_exploits reachable_in_exploits
           "cve-2024-1337.py" 4 6 eq_refl eq_refl eq_refl).
Defined.

Lemma cd_behaviour_witness :
  cd in_exploits "" = ("", initial) /\
  cd in_exploits "~" = ("", initial) /\
  (resolvePath in_exploits "doesnotexist" = None /\
   cd in_exploits "doesnotexist"
   = ("cd: doesnotexist: No such file or directory", in_exploits)) /\
  (resolvePath initial "flag.txt" = Some 3 /\
   type (deref (heap initial) 3) = file /\
   cd initial "flag.txt" = ("cd: flag.txt: Not a directory", initial)) /\
  (resolvePath initial "exploits" = Some 6 /\
   type (deref (heap initial) 6) = directory /\
   cd initial "exploits" = ("", in_exploits)).
Proof.
  split; [|split; [|split; [|split]]].
  - destruct (cd_behaviour in_exploits "") as (A & _).
    exact (A (or_introl eq_refl)).
  - destruct (cd_behaviour in_exploits "~") as (A & _).
    exact (A (or_intror eq_refl)).
  - split; [reflexivity|].
    destruct (cd_behaviour in_exploits "doesnotexist") as (_ & A).
    destruct (A ltac:(discriminate) ltac:(discriminate)) as (B & _).
    exact (B eq_refl).
  - split; [reflexivity|]. split; [reflexivity|].
    destruct (cd_behaviour initial "flag.txt") as (_ & A).
    destruct (A ltac:(discriminate) ltac:(discriminate)) as (_ & B & _).
    exact (B 3 eq_refl eq_refl).
  - split; [reflexivity|]. split; [reflexivity|].
    destruct (cd_behaviour initial "exploits") as (_ & A).
    destruct (A ltac:(discriminate) ltac:(discriminate)) as (_ & _ & B).
    exact (B 6 eq_refl eq_refl).
Defined.

Lemma cat_behaviour_witness :
  cat in_exploits [] = "cat: missing operand" /\
  (resolvePath initial "nope" = None /\
   cat initial ["nope"] = "cat: nope: No such file or directory") /\
  (resolvePath initial "secrets" = Some 11 /\
   type (deref (heap initial) 11) = directory /\
   cat initial ["secrets"] = "cat: secrets: Is a directory") /\
  (resolvePath initial "flag.txt" = Some 3 /\
   type (deref (heap initial) 3) = file /\
   content (deref (heap initial) 3) = Some "SAIC{w3lc0m3_70_541c}" /\
   cat initial ["flag.txt"] = "SAIC{w3lc0m3_70_541c}").
Proof.
  split; [|split; [|split]].
  - destruct (cat_behaviour in_exploits) as (A & _). exact A.
  - split; [reflexivity|].
    destruct (cat_behaviour initial) as (_ & A).
    destruct (A "nope" []) as (B & _). exact (B eq_refl).
  - split; [reflexivity|]. split; [reflexivity|].
    destruct (cat_behaviour initial) as (_ & A).
    destruct (A "secrets" []) as (_ & B & _). exact (B 11 eq_refl eq_refl).
  - split; [reflexivity|]. split; [reflexivity|]. split; [reflexivity|].
    destruct (cat_behaviour initial) as (_ & A).
    destruct (A "flag.txt" []) as (_ & _ & B).
    destruct (B 3 eq_refl eq_refl) as (C & _).
    exact (C _ eq_refl).
Defined.

Lemma cd_pwd_round_trip_witness :
  reachable in_exploits /\
  valid_directory_path in_exploits "../tools/" /\
  getPwd in_exploits = Some "/exploits" /\
  fst (cd in_exploits "../tools/") = "" /\
  getPwd (snd (cd in_exploits "../tools/"))
  = Some (absolute_form "/exploits" "../tools/") /\
  absolute_form "/exploits" "../tools/" = "/tools" /\
  cd in_exploits "/exploits" = ("", in_exploits).
Proof.
  assert (V : valid_directory_path in_exploits "../tools/").
  { split; [discriminate|]. exists 9. split; reflexivity. }
  destruct (cd_pwd_round_trip in_exploits reachable_in_exploits) as (A & B).
  destruct (A "../tools/" V) as (cwd & Hcwd & Hmsg & Hpwd).
  destruct B as (cwd' & Hcwd' & Hcd).
  assert (E : cwd = "/exploits").
  { vm_compute in Hcwd. injection Hcwd as <-. reflexivity. }
  assert (E' : cwd' = "/exploits").
  { vm_compute in Hcwd'. injection Hcwd' as <-. reflexivity. }
  rewrite E in Hpwd. rewrite E' in Hcd.
  split; [exact reachable_in_exploits|]. split; [exact V|].
  split; [reflexivity|]. split; [exact Hmsg|]. split; [exact Hpwd|].
  split; [reflexivity | exact Hcd].
Defined.

Lemma ls_behaviour_witness :
  (resolvePath initial "nope" = None /\
   ls initial ["nope"] = "ls: cannot access 'nope': No such file or directory")
  /\
  (resolvePath initial "flag.txt" = Some 3 /\
   type (deref (heap initial) 3) = file /\
   ls initial ["flag.txt"] = "flag.txt") /\
  (resolvePath bare_root "." = Some 0 /\
   type (deref (heap bare_root) 0) = directory /\
   children (deref (heap bare_root) 0) = Some [] /\
   ls bare_root [] = "") /\
  (resolvePath in_exploits "." = Some 6 /\
   children (deref (heap in_exploits) 6) = Some [4; 5] /\
   ~ long_requested [] /\
   ls in_exploits [] = "cve-2024-1337.py  buffer_overflow.c") /\
  (resolvePath initial "secrets" = Some 11 /\
   children (deref (heap initial) 11) = Some [10] /\
   long_requested ["secrets"; "-l"] /\
   reachable initial /\
   ls initial ["secrets"; "-l"]
   = "-rwxr-xr-x 1 root root    24 Nov 19 10:00 passwords.txt").
Proof.
  assert (NL : ~ long_requested []) by (intros H; inversion H).
  assert (L : long_requested ["secrets"; "-l"]).
  { apply Exists_cons_tl, Exists_cons_hd. right. left. reflexivity. }
  split; [|split; [|split; [|split]]].
  - split; [reflexivity|].
    destruct (ls_behaviour initial ["nope"]) as (A & _). exact (A eq_refl).
  - split; [reflexivity|]. split; [reflexivity|].
    destruct (ls_behaviour initial ["flag.txt"]) as (_ & A).
    destruct (A 3 eq_refl) as (B & _). exact (B eq_refl).
  - split; [reflexivity|]. split; [reflexivity|]. split; [reflexivity|].
    destruct (ls_behaviour bare_root []) as (_ & A).
    destruct (A 0 eq_refl) as (_ & B).
    destruct (B eq_refl) as (C & _). exact (C (or_intror eq_refl)).
  - split; [reflexivity|]. split; [reflexivity|]. split; [exact NL|].
    destruct (ls_behaviour in_exploits []) as (_ & A).
    destruct (A 6 eq_refl) as (_ & B).
    destruct (B eq_refl) as (_ & C).
    destruct (C [4; 5] eq_refl ltac:(discriminate)) as (D & _).
    exact (D NL).
  - split; [reflexivity|]. split; [reflexivity|]. split; [exact L|].
    split; [exact reachable_initial|].
    destruct (ls_behaviour initial ["secrets"; "-l"]) as (_ & A).
    destruct (A 11 eq_refl) as (_ & B).
    destruct (B eq_refl) as (_ & C).
    destruct (C [10] eq_refl ltac:(discriminate)) as (_ & D).
    exact (D L (or_introl reachable_initial)).
Defined.

Lemma find_preorder_witness :
  reachable in_exploits /\
  (resolvePath in_exploits "nope" = None /\
   find in_exploits "nope"
   = Some "find: 'nope': No such file or directory") /\
  (resolvePath in_exploits "." = Some 6 /\
   exists visits,
     Preorder in_exploits 6 "." visits /\
     find in_exploits "." = Some (Js.join Js.crlf (map snd visits)) /\
     NoDup (map fst visits) /\
     (forall m, In m (map fst visits) <-> Under in_exploits 6 m)).
Proof.
  split; [exact reachable_in_exploits|].
  destruct (find_preorder in_exploits reachable_in_exploits "nope") as (A & _).
  destruct (find_preorder in_exploits reachable_in_exploits ".") as (_ & B).
  split; [split; [reflexivity | exact (A eq_refl)]|].
  split; [reflexivity | exact (B 6 eq_refl)].
Defined.

Lemma getCompletions_behaviour_witness :
  getCompletions initial "cd secr" = ["secrets/"] /\
  getCompletions initial "cat /ex" = ["exploits/"] /\
  getCompletions in_exploits "cat ../tools/n" = ["nmap"] /\
  getCompletions initial "cat flag.txt/" = [] /\
  getCompletions initial "ls nope/x" = [].
Proof.
  assert (T : forall input tok,
             (input = tok \/
              exists before, input = (before ++ " " ++ tok)%string) ->
             occurs " "%char tok = false ->
             tok = Js.last_token (Js.split " "%char input))
    by exact last_token_unique.
  split; [|split; [|split; [|split]]].
  - destruct (getCompletions_behaviour initial "cd secr")
      as (tok & A & B & C & _).
    rewrite (T _ _ A B) in C. exact (C eq_refl).
  - destruct (getCompletions_behaviour initial "cat /ex")
      as (tok & A & B & _ & D).
    rewrite (T _ _ A B) in D. exact (D "" "ex" eq_refl eq_refl).
  - destruct (getCompletions_behaviour in_exploits "cat ../tools/n")
      as (tok & A & B & _ & D).
    rewrite (T _ _ A B) in D. exact (D "../tools" "n" eq_refl eq_refl).
  - destruct (getCompletions_behaviour initial "cat flag.txt/")
      as (tok & A & B & _ & D).
    rewrite (T _ _ A B) in D. exact (D "flag.txt" "" eq_refl eq_refl).
  - destruct (getCompletions_behaviour initial "ls nope/x")
      as (tok & A & B & _ & D).
    rewrite (T _ _ A B) in D. exact (D "nope" "x" eq_refl eq_refl).
Defined.


(** * Further properties of the methods *)

(** ** Construction *)

Lemma deref_update h r f r' :
  deref (update h r f) r'
  = if Nat.eqb r' r && Nat.ltb r (List.length h) then f (deref h r')
    else deref h r'.
Proof.
  unfold deref. revert r r'.
  induction h as [|x h IH]; intros r r'; simpl.
  - rewrite andb_false_r. reflexivity.
  - destruct r as [|r]; destruct r' as [|r']; simpl; try reflexivity.
    rewrite IH. reflexivity.
Qed.

Lemma length_update h r f : List.length (update h r f) = List.length h.
Proof.
  revert r. induction h as [|x h IH]; intros r; simpl; [reflexivity|].
  destruct r; simpl; [reflexivity | now rewrite IH].
Qed.

Lemma same_but_parents_refl h : same_but_parents h h.
Proof. split; [reflexivity | intros r; repeat split]. Qed.

Lemma same_but_parents_trans h1 h2 h3 :
  same_but_parents h1 h2 -> same_but_parents h2 h3 -> same_but_parents h1 h3.
Proof.
  intros [L1 F1] [L2 F2]. split; [congruence|].
  intros r. destruct (F1 r) as (A1 & B1 & C1 & D1).
  destruct (F2 r) as (A2 & B2 & C2 & D2).
  repeat split; congruence.
Qed.

Lemma same_but_parents_update h r p :
  same_but_parents h (update h r (set_parent p)).
Proof.
  split; [apply length_update|].
  intros r'. rewrite deref_update.
  destruct (Nat.eqb r' r && Nat.ltb r (List.length h)); repeat split.
Qed.

(** X1.  [setParents] rewrites [parent] fields and nothing else:
    whenever it finishes, the heap has the same size and every cell has
    kept its name, type, content and list of children. *)
Theorem setParents_only_parents fuel :
  forall node p h h',
    setParents fuel node p h = Some (tt, h') -> same_but_parents h h'.
Proof.
  induction fuel as [|fuel IH]; intros node p h h'; [discriminate|].
  cbn [setParents]. unfold bind, modify, read, ret.
  set (h1 := update h node (set_parent p)).
  assert (S1 : same_but_parents h h1) by apply same_but_parents_update.
  destruct (children (deref h1 node)) as [ks|].
  - revert S1. generalize h1. clear h1.
    induction ks as [|k ks IHks]; intros h1 S1; simpl.
    + unfold ret. intros E. injection E as <-. exact S1.
    + unfold bind. destruct (setParents fuel k (Some node) h1)
        as [[[] h2]|] eqn:E2; [|discriminate].
      intros E. apply (IHks h2); [|exact E].
      eapply same_but_parents_trans; [exact S1 | exact (IH _ _ _ _ E2)].
  - intros E. injection E as <-. exact S1.
Qed.

Lemma setParents_only_parents_witness :
  setParents 2 0 None
    [mkNode "/" directory None (Some [1]) None;
     mkNode "a" file (Some "x") None None]
  = Some (tt, [mkNode "/" directory None (Some [1]) None;
               mkNode "a" file (Some "x") None (Some 0)]) /\
  same_but_parents
    [mkNode "/" directory None (Some [1]) None;
     mkNode "a" file (Some "x") None None]
    [mkNode "/" directory None (Some [1]) None;
     mkNode "a" file (Some "x") None (Some 0)].
Proof.
  split; [reflexivity|].
  apply (setParents_only_parents 2 0 None). reflexivity.
Defined.

(** ** The invariants of the data model *)

Lemma initial_length : List.length (heap initial) = 12.
Proof. reflexivity. Qed.

Lemma initial_has_parent c n :
  n < 12 -> n <> 0 ->
  exists p ks,
    parent (deref (heap initial) n) = Some p /\
    allocated (mkVFS (heap initial) (root initial) c) p /\
    type (deref (heap initial) p) = directory /\
    children (deref (heap initial) p) = Some ks /\
    count_occ Nat.eq_dec ks n = 1.
Proof.
  intros L N. unfold allocated. cbn [heap]. rewrite initial_length.
  destruct n as [|n]; [congruence|].
  do 11 (destruct n as [|n];
         [eexists; eexists;
          split; [vm_compute; reflexivity|];
          split; [apply Nat.ltb_lt; reflexivity|];
          split; [vm_compute; reflexivity|];
          split; vm_compute; reflexivity|]).
  lia.
Qed.

Lemma initial_kinds n :
  match type (deref (heap initial) n) with
  | file => children (deref (heap initial) n) = None
  | directory => content (deref (heap initial) n) = None
  end.
Proof.
  do 12 (destruct n as [|n]; [vm_compute; reflexivity|]).
  vm_compute. destruct n; reflexivity.
Qed.

Lemma initial_sibling_names n ks :
  children (deref (heap initial) n) = Some ks ->
  NoDup (map (fun k => name (deref (heap initial) k)) ks).
Proof.
  intros C.
  do 12 (destruct n as [|n];
         [vm_compute in C; try discriminate; injection C as <-;
          vm_compute;
          repeat (constructor; [simpl; intuition discriminate|]);
          constructor|]).
  vm_compute in C. destruct n; discriminate.
Qed.

Lemma initial_all_under_root c n :
  n < 12 -> Under (mkVFS (heap initial) (root initial) c) (root initial) n.
Proof.
  intros L. apply nodes_under_sound with (d := 3).
  do 12 (destruct n as [|n]; [vm_compute; tauto|]).
  lia.
Qed.

(** X2.  The invariants of the data model hold in every state the
    program reaches: the constructor establishes them and [cd] keeps
    them. *)
Theorem reachable_tree_invariants (v : VirtualFileSystem) :
  reachable v -> tree_invariants v.
Proof.
  intros R. destruct (reachable_cases v R) as (c & Hc & ->).
  unfold tree_invariants. cbn [heap root currentDir].
  split; [reflexivity|]. split; [reflexivity|].
  split.
  { unfold allocated. cbn [heap]. rewrite initial_length.
    simpl in Hc. repeat (destruct Hc as [<- | Hc]; [lia|]). contradiction. }
  split.
  { simpl in Hc.
    repeat (destruct Hc as [<- | Hc]; [reflexivity|]). contradiction. }
  split.
  { intros n A N. apply initial_has_parent; [|exact N].
    unfold allocated in A. cbn [heap] in A. now rewrite initial_length in A. }
  split; [intros n _; apply initial_kinds|].
  split; [apply initial_sibling_names|].
  intros n A. apply initial_all_under_root.
  unfold allocated in A. cbn [heap] in A. now rewrite initial_length in A.
Qed.

Lemma reachable_tree_invariants_witness :
  reachable in_exploits /\ tree_invariants in_exploits.
Proof.
  split; [exact reachable_in_exploits|].
  exact (reachable_tree_invariants in_exploits reachable_in_exploits).
Defined.

(** ** Resolution never leaves the heap *)

Lemma resolve_loop_allocated v parts :
  refs_closed v ->
  forall n m,
    allocated v n -> resolve_loop v parts n = Some m -> allocated v m.
Proof.
  intros (Hr & _ & Hc).
  induction parts as [|part rest IH]; intros n m A; simpl.
  - intros E. injection E as <-. exact A.
  - destruct (String.eqb part "..").
    + apply IH. unfold parent_or_root.
      destruct (parent (deref (heap v) n)) as [p|] eqn:P; [|exact Hr].
      exact (proj1 (Hc n) p P).
    + destruct (type (deref (heap v) n)); [discriminate|].
      destruct (children (deref (heap v) n)) as [ks|] eqn:C; [|discriminate].
      destruct (List.find _ ks) as [k|] eqn:F; [|discriminate].
      apply IH. apply find_some in F as [Hin _].
      exact (proj2 (Hc n) ks k C Hin).
Qed.

Lemma resolvePath_in_heap (v : VirtualFileSystem) (path : string) :
  refs_closed v ->
  forall n, resolvePath v path = Some n -> allocated v n.
Proof.
  intros RC n. pose proof RC as (Hr & Hcur & Hc).
  unfold resolvePath.
  destruct (String.eqb path "/" || String.eqb path "~").
  { intros E. injection E as <-. exact Hr. }
  destruct (String.eqb path ".").
  { intros E. injection E as <-. exact Hcur. }
  destruct (String.eqb path "..").
  { intros E. injection E as <-. unfold parent_or_root.
    destruct (parent (deref (heap v) (currentDir v))) as [p|] eqn:P;
      [exact (proj1 (Hc _) p P) | exact Hr]. }
  apply resolve_loop_allocated; [exact RC|].
  destruct (Js.startsWith path "/"); assumption.
Qed.

(** X3.  In a heap whose references are closed, whatever [resolvePath]
    returns for whatever string is an allocated node: resolution never
    yields a dangling reference. *)
Theorem resolvePath_allocated (v : VirtualFileSystem) (path : string) :
  refs_closed v ->
  forall n, resolvePath v path = Some n -> allocated v n.
Proof. exact (resolvePath_in_heap v path). Qed.

Lemma initial_refs_closed c :
  c < 12 -> refs_closed (mkVFS (heap initial) (root initial) c).
Proof.
  intros L. unfold refs_closed, allocated. cbn [heap root currentDir].
  rewrite initial_length. split; [vm_compute; lia|]. split; [exact L|].
  intros n. split.
  - intros p P.
    do 12 (destruct n as [|n];
           [vm_compute in P; try discriminate; injection P as <-; lia|]).
    vm_compute in P. destruct n; discriminate.
  - intros ks k C Hin.
    do 12 (destruct n as [|n];
           [vm_compute in C; try discriminate; injection C as <-;
            simpl in Hin; intuition lia|]).
    vm_compute in C. destruct n; discriminate.
Qed.

Lemma reachable_refs_closed v : reachable v -> refs_closed v.
Proof.
  intros R. destruct (reachable_cases v R) as (c & Hc & ->).
  apply initial_refs_closed. simpl in Hc. intuition lia.
Qed.

Lemma resolvePath_allocated_witness :
  refs_closed in_exploits /\
  resolvePath in_exploits "../tools/nmap" = Some 7 /\
  allocated in_exploits 7.
Proof.
  assert (RC : refs_closed in_exploits)
    by exact (reachable_refs_closed _ reachable_in_exploits).
  split; [exact RC|]. split; [reflexivity|].
  exact (resolvePath_allocated in_exploits "../tools/nmap" RC 7 eq_refl).
Defined.

(** ** What [cd] keeps *)

(** The state [cd] leaves: the one it found, or the same heap and root
    with a new current directory, the root or a directory the path
    resolved to. *)
Lemma cd_state_cases v path :
  snd (cd v path) = v \/
  exists n,
    snd (cd v path) = mkVFS (heap v) (root v) n /\
    (n = root v \/
     (resolvePath v path = Some n /\ type (deref (heap v) n) = directory)).
Proof.
  unfold cd.
  destruct (negb (Js.truthy path) || String.eqb path "~").
  - right. exists (root v). split; [reflexivity | now left].
  - destruct (resolvePath v path) as [n|]; [|now left].
    destruct (type (deref (heap v) n)) eqn:T; [now left|].
    right. exists n. split; [reflexivity | right; now split].
Qed.

(** X4.  [cd] never touches the heap or the root, whatever its
    argument and outcome; it keeps the current directory a directory
    (given that the root is one), and it keeps the references closed. *)
Theorem cd_keeps_graph (v : VirtualFileSystem) (path : string) :
  heap (snd (cd v path)) = heap v /\
  root (snd (cd v path)) = root v /\
  (type (deref (heap v) (root v)) = directory ->
   type (deref (heap v) (currentDir v)) = directory ->
   type (deref (heap v) (currentDir (snd (cd v path)))) = directory) /\
  (refs_closed v -> refs_closed (snd (cd v path))).
Proof.
  destruct (cd_state_cases v path) as [E | (n & E & [-> | [R T]])];
    rewrite E; cbn [heap root currentDir].
  - split; [reflexivity|]. split; [reflexivity|]. split; auto.
  - split; [reflexivity|]. split; [reflexivity|]. split; [auto|].
    intros (Hr & _ & Hc). split; [exact Hr|]. split; [exact Hr | exact Hc].
  - split; [reflexivity|]. split; [reflexivity|]. split; [auto|].
    intros RC. pose proof RC as (Hr & _ & Hc).
    split; [exact Hr|]. split; [|exact Hc].
    exact (resolvePath_in_heap v path RC n R).
Qed.

Lemma cd_keeps_graph_witness :
  type (deref (heap initial) (root initial)) = directory /\
  type (deref (heap initial) (currentDir initial)) = directory /\
  refs_closed initial /\
  type (deref (heap initial) (currentDir (snd (cd initial "tools"))))
  = directory /\
  refs_closed (snd (cd initial "tools")).
Proof.
  assert (RC : refs_closed initial)
    by exact (reachable_refs_closed _ reachable_initial).
  destruct (cd_keeps_graph initial "tools") as (_ & _ & A & B).
  split; [reflexivity|]. split; [reflexivity|]. split; [exact RC|].
  split; [exact (A eq_refl eq_refl) | exact (B RC)].
Defined.

(** ** Resolution and the shape of the expression *)

Lemma path_parts_app_slash a b :
  path_parts (a ++ String "/"%char b)%string = path_parts a ++ path_parts b.
Proof. unfold path_parts. now rewrite split_app_sep, filter_app. Qed.

Lemma not_tilde_with_slash a b : (a ++ String "/"%char b)%string <> "~".
Proof. destruct a as [|x [|y a]]; simpl; discriminate. Qed.

Lemma startsWith_slash_app a b :
  Js.startsWith (a ++ String "/"%char b)%string "/"
  = if String.eqb a "" then true else Js.startsWith a "/".
Proof.
  destruct a as [|x a]; simpl.
  - unfold Js.startsWith. simpl. now destruct b.
  - exact (startsWith_app (String x a) (String "/"%char b) "/"%char
             ltac:(discriminate)).
Qed.

(** X5.  A trailing slash changes nothing: for every expression other
    than the empty one and ["~"], [p + "/"] resolves as [p] does, found
    or not. *)
Theorem resolvePath_trailing_slash (v : VirtualFileSystem) (p : string) :
  p <> "" -> p <> "~" ->
  resolvePath v (p ++ "/")%string = resolvePath v p.
Proof.
  intros N1 N2.
  change (p ++ "/")%string with (p ++ String "/"%char "")%string.
  rewrite (resolvePath_general v _ (not_tilde_with_slash p "")).
  rewrite (resolvePath_general v _ N2).
  rewrite path_parts_app_slash. unfold start_of.
  rewrite startsWith_slash_app.
  apply String.eqb_neq in N1. rewrite N1.
  change (path_parts "") with (@nil string). now rewrite app_nil_r.
Qed.

Lemma resolvePath_trailing_slash_witness :
  resolvePath in_exploits "../tools/" = resolvePath in_exploits "../tools" /\
  resolvePath in_exploits "nope/" = resolvePath in_exploits "nope".
Proof.
  split.
  - exact (resolvePath_trailing_slash in_exploits "../tools"
             ltac:(discriminate) ltac:(discriminate)).
  - exact (resolvePath_trailing_slash in_exploits "nope"
             ltac:(discriminate) ltac:(discriminate)).
Defined.

(** X6.  A doubled slash counts as one, wherever it stands: [a + "//" +
    b] resolves as [a + "/" + b] does, for all strings [a] and [b]. *)
Theorem resolvePath_double_slash (v : VirtualFileSystem) (a b : string) :
  resolvePath v (a ++ "//" ++ b)%string = resolvePath v (a ++ "/" ++ b)%string.
Proof.
  change (a ++ "//" ++ b)%string
    with (a ++ String "/"%char (String "/"%char b))%string.
  change (a ++ "/" ++ b)%string with (a ++ String "/"%char b)%string.
  rewrite !(resolvePath_general v _ (not_tilde_with_slash a _)).
  rewrite !path_parts_app_slash. unfold start_of.
  rewrite !startsWith_slash_app.
  change (String "/"%char b) with ("" ++ String "/"%char b)%string.
  rewrite path_parts_app_slash. reflexivity.
Qed.

(** X7.  A leading ["./"] changes nothing for a relative expression:
    when [p] does not begin with a slash and is not ["~"], ["./" + p]
    resolves as [p] does. *)
Theorem resolvePath_dot_slash (v : VirtualFileSystem) (p : string) :
  ~ begins_with_slash p -> p <> "~" ->
  resolvePath v ("./" ++ p)%string = resolvePath v p.
Proof.
  intros NB N2.
  change ("./" ++ p)%string with ("." ++ String "/"%char p)%string.
  rewrite (resolvePath_general v _ (not_tilde_with_slash "." p)).
  rewrite (resolvePath_general v _ N2).
  rewrite path_parts_app_slash. unfold start_of.
  rewrite startsWith_slash_app. cbn [String.eqb].
  change (Js.startsWith "." "/") with false.
  change (path_parts ".") with (@nil string). cbn [app].
  destruct (Js.startsWith p "/") eqn:S; [|reflexivity].
  exfalso. apply NB. now apply begins_with_slash_iff.
Qed.

Lemma resolvePath_dot_slash_witness :
  ~ begins_with_slash "exploits/.." /\
  resolvePath initial "./exploits/.." = resolvePath initial "exploits/..".
Proof.
  assert (NB : ~ begins_with_slash "exploits/..")
    by (intros [rest E]; discriminate E).
  split; [exact NB|].
  exact (resolvePath_dot_slash initial "exploits/.." NB ltac:(discriminate)).
Defined.

(** X8.  An absolute expression, one that begins with a slash or is
    ["~"], resolves to the same node from every current directory. *)
Theorem resolvePath_absolute (h : Heap) (r c c' : ref) (p : string) :
  begins_with_slash p \/ p = "~" ->
  resolvePath (mkVFS h r c) p = resolvePath (mkVFS h r c') p.
Proof.
  intros [B | ->]; [|reflexivity].
  assert (N : p <> "~") by (destruct B as [rest ->]; discriminate).
  rewrite !(resolvePath_general _ _ N). unfold start_of.
  apply begins_with_slash_iff in B. rewrite B. reflexivity.
Qed.

Lemma resolvePath_absolute_witness :
  begins_with_slash "/tools/nmap" /\
  resolvePath (mkVFS (heap initial) 0 6) "/tools/nmap"
  = resolvePath (mkVFS (heap initial) 0 11) "/tools/nmap".
Proof.
  assert (B : begins_with_slash "/tools/nmap") by (now exists "tools/nmap").
  split; [exact B|].
  exact (resolvePath_absolute (heap initial) 0 6 11 "/tools/nmap"
           (or_introl B)).
Defined.

(** ** How [cd] composes with resolution and with itself *)

Lemma resolve_loop_currentDir h r c c' parts n :
  resolve_loop (mkVFS h r c) parts n = resolve_loop (mkVFS h r c') parts n.
Proof. reflexivity. Qed.

(** X9.  Resolving a relative expression after a successful [cd] is
    resolving the two expressions joined by a slash from where one stood:
    after [cd p], [q] resolves as [p + "/" + q] did before. *)
Theorem cd_then_resolve (v : VirtualFileSystem) (p q : string) (n : ref) :
  p <> "" -> p <> "~" ->
  resolvePath v p = Some n ->
  type (deref (heap v) n) = directory ->
  ~ begins_with_slash q -> q <> "~" ->
  resolvePath (snd (cd v p)) q = resolvePath v (p ++ "/" ++ q)%string.
Proof.
  intros N1 N2 R T NB N3.
  rewrite (cd_success v p n N1 R T). cbn [snd].
  change (p ++ "/" ++ q)%string with (p ++ String "/"%char q)%string.
  rewrite (resolvePath_general _ _ N3).
  rewrite (resolvePath_general v _ (not_tilde_with_slash p q)).
  rewrite (resolvePath_general v _ N2) in R.
  rewrite path_parts_app_slash, resolve_loop_app.
  unfold start_of in *. rewrite startsWith_slash_app.
  apply String.eqb_neq in N1. rewrite N1, R.
  destruct (Js.startsWith q "/") eqn:S.
  - exfalso. apply NB. now apply begins_with_slash_iff.
  - cbn [currentDir]. destruct v as [h r c]. reflexivity.
Qed.

Lemma cd_then_resolve_witness :
  resolvePath in_exploits "../tools" = Some 9 /\
  type (deref (heap in_exploits) 9) = directory /\
  ~ begins_with_slash "./nmap" /\
  resolvePath (snd (cd in_exploits "../tools")) "./nmap"
  = resolvePath in_exploits "../tools/./nmap".
Proof.
  assert (NB : ~ begins_with_slash "./nmap")
    by (intros [rest E]; discriminate E).
  split; [reflexivity|]. split; [reflexivity|]. split; [exact NB|].
  exact (cd_then_resolve in_exploits "../tools" "./nmap" 9
           ltac:(discriminate) ltac:(discriminate) eq_refl eq_refl NB
           ltac:(discriminate)).
Defined.

(** X10.  [cd] to an absolute destination is idempotent: for the empty
    path, ["~"] and every expression that begins with a slash, a second
    [cd] with the same argument returns the same message and leaves the
    same state as the first, whether the first succeeded or not. *)
Theorem cd_absolute_idempotent (v : VirtualFileSystem) (p : string) :
  p = "" \/ p = "~" \/ begins_with_slash p ->
  cd (snd (cd v p)) p = cd v p.
Proof.
  intros [-> | [-> | B]]; [reflexivity | reflexivity |].
  assert (N1 : p <> "") by (destruct B as [rest ->]; discriminate).
  assert (N2 : p <> "~") by (destruct B as [rest ->]; discriminate).
  assert (A : forall c, resolvePath (mkVFS (heap v) (root v) c) p
                        = resolvePath v p).
  { intros c. rewrite !(resolvePath_general _ _ N2). unfold start_of.
    apply begins_with_slash_iff in B. rewrite B.
    destruct v as [h r c0]. reflexivity. }
  destruct (resolvePath v p) as [n|] eqn:R.
  - destruct (type (deref (heap v) n)) eqn:T.
    + unfold cd at 2. unfold Js.truthy.
      apply String.eqb_neq in N1. apply String.eqb_neq in N2.
      rewrite N1, N2, R, T. cbn [negb orb snd].
      unfold cd, Js.truthy. rewrite N1, N2, R, T. reflexivity.
    + rewrite (cd_success v p n N1 R T). cbn [snd].
      exact (cd_success (mkVFS (heap v) (root v) n) p n N1 (A n) T).
  - unfold cd at 2. unfold Js.truthy.
    apply String.eqb_neq in N1. apply String.eqb_neq in N2.
    rewrite N1, N2, R. cbn [negb orb snd].
    unfold cd, Js.truthy. rewrite N1, N2, R. reflexivity.
Qed.

Lemma cd_absolute_idempotent_witness :
  begins_with_slash "/secrets" /\
  cd (snd (cd in_exploits "/secrets")) "/secrets" = cd in_exploits "/secrets"
  /\
  cd (snd (cd in_exploits "/flag.txt")) "/flag.txt"
  = cd in_exploits "/flag.txt".
Proof.
  assert (B : begins_with_slash "/secrets") by (now exists "secrets").
  assert (B' : begins_with_slash "/flag.txt") by (now exists "flag.txt").
  split; [exact B|]. split.
  - exact (cd_absolute_idempotent in_exploits "/secrets"
             (or_intror (or_intror B))).
  - exact (cd_absolute_idempotent in_exploits "/flag.txt"
             (or_intror (or_intror B'))).
Defined.

Lemma plain_name_parts s : plain_name s -> path_parts s = [s].
Proof.
  intros (N1 & N2 & _ & _ & F). unfold path_parts.
  rewrite (split_free_id _ _ F). simpl. unfold Js.truthy.
  apply String.eqb_neq in N1. apply String.eqb_neq in N2.
  now rewrite N1, N2.
Qed.

Lemma plain_name_relative s : plain_name s -> Js.startsWith s "/" = false.
Proof.
  intros (N1 & _ & _ & _ & F).
  destruct (Js.startsWith s "/") eqn:S; [|reflexivity].
  apply begins_with_slash_iff in S as [rest ->].
  simpl in F. discriminate.
Qed.

(** X11.  In a heap whose children point back to their directory, going
    down into a child directory by its plain name and then [cd ".."]
    leads back: both calls succeed and the object is as it was. *)
Theorem cd_down_then_up (v : VirtualFileSystem) (s : string) (k : ref) :
  parents_consistent v ->
  plain_name s ->
  resolvePath v s = Some k ->
  type (deref (heap v) k) = directory ->
  fst (cd v s) = "" /\ cd (snd (cd v s)) ".." = ("", v).
Proof.
  intros PC PN R T.
  pose proof PN as (N1 & N2 & N3 & N4 & F).
  rewrite (cd_success v s k N1 R T). cbn [fst snd]. split; [reflexivity|].
  rewrite (resolvePath_general v _ N4) in R.
  rewrite (plain_name_parts _ PN) in R. unfold start_of in R.
  rewrite (plain_name_relative _ PN) in R. cbn [resolve_loop] in R.
  apply String.eqb_neq in N3. rewrite N3 in R.
  destruct (type (deref (heap v) (currentDir v))) eqn:Tc; [discriminate|].
  destruct (children (deref (heap v) (currentDir v))) as [ks|] eqn:C;
    [|discriminate].
  destruct (List.find _ ks) as [k'|] eqn:Fk; [|discriminate].
  injection R as ->.
  apply find_some in Fk as [Hin _].
  pose proof (PC _ _ _ Tc C Hin) as P.
  unfold cd, resolvePath, parent_or_root. cbn [heap root currentDir].
  cbn. rewrite P, Tc. destruct v as [h r c]. reflexivity.
Qed.

Lemma reachable_parents_consistent v : reachable v -> parents_consistent v.
Proof.
  intros R. destruct (reachable_shape v R) as (Hh & _ & _).
  unfold parents_consistent. rewrite Hh. clear.
  intros n ks k T C Hin.
  do 12 (destruct n as [|n];
         [vm_compute in T; try discriminate;
          vm_compute in C; injection C as <-;
          simpl in Hin;
          repeat (destruct Hin as [<- | Hin]; [reflexivity|]);
          contradiction|]).
  vm_compute in T. destruct n; discriminate.
Qed.

Lemma cd_down_then_up_witness :
  parents_consistent initial /\
  plain_name "tools" /\
  resolvePath initial "tools" = Some 9 /\
  type (deref (heap initial) 9) = directory /\
  fst (cd initial "tools") = "" /\
  cd (snd (cd initial "tools")) ".." = ("", initial).
Proof.
  assert (PC : parents_consistent initial)
    by exact (reachable_parents_consistent _ reachable_initial).
  assert (PN : plain_name "tools")
    by (repeat split; (discriminate || reflexivity)).
  split; [exact PC|]. split; [exact PN|].
  split; [reflexivity|]. split; [reflexivity|].
  exact (cd_down_then_up initial "tools" 9 PC PN eq_refl eq_refl).
Defined.

(** ** The segments of an expression *)

Lemma filter_all {A} (f : A -> bool) l :
  Forall (fun x => f x = true) l -> filter f l = l.
Proof.
  induction 1 as [|x l Hx _ IH]; simpl; [reflexivity|].
  now rewrite Hx, IH.
Qed.

Lemma path_parts_kept p :
  Forall (fun s => kept s = true /\ occurs "/"%char s = false) (path_parts p).
Proof.
  apply Forall_forall. intros s Hs. unfold path_parts in Hs.
  apply filter_In in Hs as [Hin K]. split; [exact K|].
  pose proof (split_free "/"%char p) as F. rewrite Forall_forall in F.
  now apply F.
Qed.

Lemma path_parts_join l :
  Forall (fun s => kept s = true /\ occurs "/"%char s = false) l ->
  path_parts (Js.join "/" l) = l.
Proof.
  intros F. destruct l as [|x l]; [reflexivity|].
  unfold path_parts.
  change "/" with (String "/"%char EmptyString).
  rewrite split_of_join.
  - apply filter_all. eapply Forall_impl; [|exact F]. now intros s [K _].
  - discriminate.
  - eapply Forall_impl; [|exact F]. now intros s [_ O].
Qed.

(** X12.  The segments [resolvePath] walks are never empty, never a
    bare dot and never contain a slash; and they are stable: joining
    them by slashes and cutting again gives the same segments. *)
Theorem path_parts_stable (p : string) :
  Forall (fun s => s <> "" /\ s <> "." /\ occurs "/"%char s = false)
         (path_parts p) /\
  path_parts (Js.join "/" (path_parts p)) = path_parts p.
Proof.
  split.
  - eapply Forall_impl; [|apply path_parts_kept].
    intros s [K O]. unfold kept in K.
    apply andb_true_iff in K as [K1 K2].
    apply negb_true_iff in K1, K2.
    apply String.eqb_neq in K1, K2. auto.
  - apply path_parts_join, path_parts_kept.
Qed.

Lemma startsWith_join_kept l :
  Forall (fun s => kept s = true /\ occurs "/"%char s = false) l ->
  Js.startsWith (Js.join "/" l) "/" = false.
Proof.
  intros F. destruct l as [|x l]; [reflexivity|].
  inversion F as [|? ? [K O] _]; subst.
  destruct x as [|a x]; [discriminate|].
  simpl in O. apply orb_false_iff in O as [O _].
  assert (E : exists t, Js.join "/" (String a x :: l) = String a t).
  { destruct l; simpl; eauto. }
  destruct E as [t E]. rewrite E.
  destruct (Js.startsWith (String a t) "/") eqn:S; [|reflexivity].
  apply startsWith_iff in S as [rest S]. injection S as -> _.
  discriminate.
Qed.

(** X13.  Only the kept segments and the leading slash matter.  An
    expression that begins with a slash resolves as the slash followed
    by its segments joined by slashes; a relative expression resolves as
    its joined segments, unless it is ["~"] or its only segment is
    ["~"], the two cases in which the literal test for ["~"] tells the
    two apart. *)
Theorem resolvePath_normal_form (v : VirtualFileSystem) (p : string) :
  (begins_with_slash p ->
   resolvePath v ("/" ++ Js.join "/" (path_parts p))%string = resolvePath v p)
  /\
  (~ begins_with_slash p -> p <> "~" -> path_parts p <> ["~"] ->
   resolvePath v (Js.join "/" (path_parts p)) = resolvePath v p).
Proof.
  pose proof (path_parts_kept p) as K. split.
  - intros B.
    assert (N : p <> "~") by (destruct B as [rest ->]; discriminate).
    change ("/" ++ Js.join "/" (path_parts p))%string
      with ("" ++ String "/"%char (Js.join "/" (path_parts p)))%string.
    rewrite (resolvePath_general v _ (not_tilde_with_slash "" _)).
    rewrite (resolvePath_general v _ N).
    rewrite path_parts_app_slash, (path_parts_join _ K).
    unfold start_of. rewrite startsWith_slash_app.
    apply begins_with_slash_iff in B. rewrite B. reflexivity.
  - intros NB N NT.
    assert (NJ : Js.join "/" (path_parts p) <> "~").
    { intros E. apply NT. rewrite <- (path_parts_join _ K), E. reflexivity. }
    rewrite (resolvePath_general v _ NJ), (resolvePath_general v _ N).
    rewrite (path_parts_join _ K). unfold start_of.
    rewrite (startsWith_join_kept _ K).
    destruct (Js.startsWith p "/") eqn:S; [|reflexivity].
    exfalso. apply NB. now apply begins_with_slash_iff.
Qed.

Lemma resolvePath_normal_form_witness :
  begins_with_slash "//tools/./nmap/" /\
  resolvePath in_exploits "/tools/nmap"
  = resolvePath in_exploits "//tools/./nmap/" /\
  ~ begins_with_slash ".././tools//" /\
  resolvePath in_exploits "../tools" = resolvePath in_exploits ".././tools//".
Proof.
  assert (B : begins_with_slash "//tools/./nmap/")
    by (now exists "/tools/./nmap/").
  assert (NB : ~ begins_with_slash ".././tools//")
    by (intros [rest E]; discriminate E).
  destruct (resolvePath_normal_form in_exploits "//tools/./nmap/") as (A1 & _).
  destruct (resolvePath_normal_form in_exploits ".././tools//") as (_ & A2).
  split; [exact B|]. split; [exact (A1 B)|]. split; [exact NB|].
  exact (A2 NB ltac:(discriminate) ltac:(discriminate)).
Defined.

(** ** The printed path *)

Lemma getPwd_loop_acc v fuel :
  forall current acc,
    getPwd_loop v fuel current acc
    = option_map (fun l => l ++ acc) (getPwd_loop v fuel current []).
Proof.
  induction fuel as [|fuel IH]; intros current acc; [reflexivity|].
  cbn [getPwd_loop]. destruct current as [c|]; [|reflexivity].
  destruct (Nat.eqb c (root v)); [reflexivity|].
  rewrite (IH _ (name (deref (heap v) c) :: acc)).
  rewrite (IH _ [name (deref (heap v) c)]).
  destruct (getPwd_loop v fuel (parent (deref (heap v) c)) []); simpl;
    [|reflexivity].
  now rewrite <- app_assoc.
Qed.

(** X14.  Away from the root, what [getPwd] prints is built from what
    it prints in the parent directory: whenever it finishes in a
    directory that is not the root and has a parent, it finishes in the
    parent too, and the names printed are the parent's followed by the
    directory's own name. *)
Theorem getPwd_extends_parent (v : VirtualFileSystem) (p : ref) (s : string) :
  currentDir v <> root v ->
  parent (deref (heap v) (currentDir v)) = Some p ->
  getPwd v = Some s ->
  exists names,
    getPwd (mkVFS (heap v) (root v) p) = Some (render_path names) /\
    s = render_path (names ++ [name (deref (heap v) (currentDir v))]).
Proof.
  intros N P. unfold getPwd, names_to, walk_fuel. cbn [heap root currentDir].
  cbn [getPwd_loop]. apply Nat.eqb_neq in N. rewrite N, P.
  rewrite getPwd_loop_acc.
  destruct (getPwd_loop v (List.length (heap v)) (Some p) []) as [l|] eqn:E;
    [|discriminate].
  intros H. injection H as <-. exists l. split; [|reflexivity].
  apply getPwd_loop_more_fuel in E.
  destruct v as [h r c]. cbn [heap root currentDir] in *.
  change (getPwd_loop (mkVFS h r p)) with (getPwd_loop (mkVFS h r c)).
  cbn [getPwd_loop heap root] in E. now rewrite E.
Qed.

Lemma getPwd_extends_parent_witness :
  currentDir in_exploits <> root in_exploits /\
  parent (deref (heap in_exploits) (currentDir in_exploits)) = Some 0 /\
  getPwd in_exploits = Some "/exploits" /\
  exists names,
    getPwd (mkVFS (heap in_exploits) (root in_exploits) 0)
    = Some (render_path names) /\
    "/exploits"
    = render_path
        (names ++ [name (deref (heap in_exploits) (currentDir in_exploits))]).
Proof.
  split; [discriminate|]. split; [reflexivity|]. split; [reflexivity|].
  exact (getPwd_extends_parent in_exploits 0 "/exploits"
           ltac:(discriminate) eq_refl eq_refl).
Defined.

(** ** Listing and completion *)

Lemma startsWith_empty s : Js.startsWith s "" = true.
Proof. unfold Js.startsWith. now destruct s. Qed.

Lemma short_entry_listed v k : short_entry v k = listed_name v k.
Proof. reflexivity. Qed.

(** X15.  Completion and listing agree: for a directory path [d]
    without spaces that is not itself a long-format flag, the short
    listing [ls [d]] is the completions of [d + "/"] joined by two
    spaces. *)
Theorem ls_joins_completions (v : VirtualFileSystem) (d : string) (n : ref) :
  d <> "" ->
  occurs " "%char d = false ->
  ~ long_requested [d] ->
  resolvePath v d = Some n ->
  type (deref (heap v) n) = directory ->
  ls v [d] = Js.join "  " (getCompletions v (d ++ "/")%string).
Proof.
  intros N Sp NL R T.
  assert (Tok : Js.last_token (Js.split " "%char (d ++ "/")%string)
                = (d ++ String "/"%char "")%string).
  { rewrite split_free_id; [reflexivity|].
    rewrite occurs_app, Sp. reflexivity. }
  unfold getCompletions. cbv zeta. rewrite Tok.
  rewrite (lastIndexOf_decomposed "/"%char d "" eq_refl).
  rewrite substring_before, substring_after.
  destruct (Z.eqb_spec (Z.of_nat (String.length d)) (-1)) as [A|_]; [lia|].
  cbn [negb]. unfold Js.truthy at 1.
  apply String.eqb_neq in N. rewrite N. cbn [negb].
  unfold ls. cbn [first_or_dot]. unfold Js.truthy. rewrite N. cbn [negb].
  rewrite R, T.
  destruct (children (deref (heap v) n)) as [[|k ks]|]; try reflexivity.
  pose proof (long_requested_iff [d]) as L.
  destruct (Js.includes [d] "-la" || Js.includes [d] "-l"
            || Js.includes [d] "-al").
  - exfalso. apply NL. now apply L.
  - f_equal. symmetry. f_equal. apply filter_all.
    apply Forall_forall. intros j _. apply startsWith_empty.
Qed.

Lemma ls_joins_completions_witness :
  ~ long_requested ["/exploits"] /\
  resolvePath in_exploits "/exploits" = Some 6 /\
  type (deref (heap in_exploits) 6) = directory /\
  ls in_exploits ["/exploits"]
  = Js.join "  " (getCompletions in_exploits "/exploits/").
Proof.
  assert (NL : ~ long_requested ["/exploits"]).
  { intros H. inversion H as [? ? [E | [E | E]] | ? ? H']; subst;
      try discriminate E. inversion H'. }
  split; [exact NL|]. split; [reflexivity|]. split; [reflexivity|].
  exact (ls_joins_completions in_exploits "/exploits" 6
           ltac:(discriminate) eq_refl NL eq_refl eq_refl).
Defined.

(** The input is some text followed by the token completed, and the
    token some text followed by the partial name; what is returned are
    the suggestions for that partial name in some directory. *)
Lemma getCompletions_as_suggestions v input :
  exists pre partial dir,
    input = (pre ++ partial)%string /\
    (pre = "" \/ exists q, pre = (q ++ "/")%string \/ pre = (q ++ " ")%string)
    /\ occurs "/"%char partial = false /\
    occurs " "%char partial = false /\
    getCompletions v input = suggestions v dir partial.
Proof.
  set (tok := Js.last_token (Js.split " "%char input)).
  assert (Htok : input = tok \/ exists q, input = (q ++ String " "%char tok)%string).
  { destruct (occurs " "%char input) eqn:O.
    - right. exact (split_last_after _ _ O).
    - left. unfold tok. now rewrite (split_free_id _ _ O). }
  assert (Fsp : occurs " "%char tok = false) by apply last_token_free.
  destruct (occurs "/"%char tok) eqn:Osl.
  - destruct (occurs_decompose _ _ Osl) as (a & b & E & Fb).
    assert (Fb' : occurs " "%char b = false).
    { rewrite E, occurs_app in Fsp. apply orb_false_iff in Fsp as [_ Fsp].
      simpl in Fsp. exact Fsp. }
    assert (G : getCompletions v input
                = suggestions v
                    (resolvePath v (if Js.truthy a then a else "/")) b).
    { unfold getCompletions. cbv zeta. fold tok.
      rewrite E, (lastIndexOf_decomposed _ _ _ Fb).
      rewrite substring_before, substring_after.
      destruct (Z.eqb_spec (Z.of_nat (String.length a)) (-1)) as [A|_]; [lia|].
      cbn [negb].
      apply (completion_lookup v (if Js.truthy a then a else "/") b). }
    destruct Htok as [Hi | [q Hi]].
    + exists (a ++ "/")%string, b, (resolvePath v (if Js.truthy a then a else "/")).
      split; [rewrite Hi, E; now rewrite app_assoc_str|].
      split; [right; exists a; now left|]. auto.
    + exists ((q ++ String " "%char a) ++ "/")%string, b,
        (resolvePath v (if Js.truthy a then a else "/")).
      split.
      { rewrite Hi, E. rewrite !app_assoc_str. reflexivity. }
      split; [right; exists (q ++ String " "%char a)%string; now left|]. auto.
  - assert (G : getCompletions v input
                = suggestions v (resolvePath v ".") tok).
    { unfold getCompletions. cbv zeta. fold tok.
      rewrite (lastIndexOf_absent _ _ Osl). cbn [Z.eqb negb].
      apply (completion_lookup v "." tok). }
    destruct Htok as [Hi | [q Hi]].
    + exists "", tok, (resolvePath v "."). split; [exact Hi|].
      split; [now left|]. auto.
    + exists (q ++ " ")%string, tok, (resolvePath v ".").
      split; [rewrite Hi; now rewrite app_assoc_str|].
      split; [right; exists q; now right|]. auto.
Qed.

(** X16.  Every suggestion continues what was typed: the input ends
    with a partial name, the text after its last slash or space, and
    each suggestion returned begins with that partial name. *)
Theorem getCompletions_extend_input (v : VirtualFileSystem) (input : string) :
  exists pre partial,
    input = (pre ++ partial)%string /\
    (pre = "" \/ exists q, pre = (q ++ "/")%string \/ pre = (q ++ " ")%string)
    /\ occurs "/"%char partial = false /\
    occurs " "%char partial = false /\
    forall s, In s (getCompletions v input) ->
              exists rest, s = (partial ++ rest)%string.
Proof.
  destruct (getCompletions_as_suggestions v input)
    as (pre & partial & dir & E & P & F1 & F2 & G).
  exists pre, partial. repeat (split; [assumption|]).
  intros s Hs. rewrite G in Hs. unfold suggestions in Hs.
  destruct dir as [d|]; [|contradiction].
  destruct (type (deref (heap v) d)); [contradiction|].
  apply in_map_iff in Hs as (k & <- & Hk).
  apply filter_In in Hk as [_ Hk].
  apply (startsWith_iff (name (deref (heap v) k)) partial) in Hk
    as [rest Hk].
  unfold listed_name. destruct (type (deref (heap v) k)).
  - now exists rest.
  - exists (rest ++ "/")%string. rewrite Hk. now rewrite app_assoc_str.
Qed.

Lemma getCompletions_extend_input_witness :
  In "exploits/" (getCompletions initial "cat /ex") /\
  exists pre partial,
    "cat /ex" = (pre ++ partial)%string /\
    occurs "/"%char partial = false /\
    occurs " "%char partial = false /\
    exists rest, "exploits/" = (partial ++ rest)%string.
Proof.
  assert (I : In "exploits/" (getCompletions initial "cat /ex"))
    by exact (or_introl eq_refl).
  split; [exact I|].
  destruct (getCompletions_extend_input initial "cat /ex")
    as (pre & partial & E & _ & F1 & F2 & H).
  exists pre, partial.
  split; [exact E|]. split; [exact F1|]. split; [exact F2|].
  exact (H "exploits/" I).
Defined.

(** ** Enumeration *)

Lemma append_nil_r_str s : (s ++ "")%string = s.
Proof. induction s; simpl; congruence. Qed.

Lemma find_unfold v path start :
  resolvePath v path = Some start ->
  find v path
  = option_map (Js.join Js.crlf) (traverse v (walk_fuel v) start path []).
Proof.
  intros R. unfold find. rewrite R.
  now destruct (String.eqb_spec path ".") as [->|_].
Qed.

(** X17.  [find] on a node that has nothing below it, a file or a
    directory without children, returns the expression it was given,
    unchanged and alone. *)
Theorem find_leaf (v : VirtualFileSystem) (path : string) (n : ref) :
  resolvePath v path = Some n ->
  type (deref (heap v) n) = file \/
  children (deref (heap v) n) = None \/
  children (deref (heap v) n) = Some [] ->
  find v path = Some path.
Proof.
  intros R H. rewrite (find_unfold v path n R).
  unfold walk_fuel. rewrite traverse_step.
  assert (D : descend v n = []).
  { unfold descend. destruct H as [-> | [-> | ->]]; [reflexivity| |];
      now destruct (type (deref (heap v) n)). }
  rewrite D. reflexivity.
Qed.

Lemma find_leaf_witness :
  resolvePath in_exploits "../flag.txt" = Some 3 /\
  type (deref (heap in_exploits) 3) = file /\
  find in_exploits "../flag.txt" = Some "../flag.txt" /\
  resolvePath bare_root "/" = Some 0 /\
  children (deref (heap bare_root) 0) = Some [] /\
  find bare_root "/" = Some "/".
Proof.
  split; [reflexivity|]. split; [reflexivity|]. split.
  - exact (find_leaf in_exploits "../flag.txt" 3 eq_refl (or_introl eq_refl)).
  - split; [reflexivity|]. split; [reflexivity|].
    exact (find_leaf bare_root "/" 0 eq_refl
             (or_intror (or_intror eq_refl))).
Defined.

Lemma for_of_extends {A B : Type} (l : list A)
      (body : A -> list B -> option (list B)) :
  (forall x s s', body x s = Some s' -> exists e, s' = s ++ e) ->
  forall s s', for_of l body s = Some s' -> exists e, s' = s ++ e.
Proof.
  intros E. induction l as [|x l IH]; intros s s'; simpl.
  - intros H. injection H as <-. exists []. now rewrite app_nil_r.
  - destruct (body x s) as [s1|] eqn:Hb; [|discriminate].
    intros H. destruct (E _ _ _ Hb) as [e1 ->].
    destruct (IH _ _ H) as [e2 ->].
    exists (e1 ++ e2). now rewrite app_assoc.
Qed.

(** [traverse] only ever pushes: what it returns is what it was given,
    then the path of the node it was called on, then more. *)
Lemma traverse_pushes v fuel :
  forall n p res out,
    traverse v fuel n p res = Some out -> exists e, out = res ++ p :: e.
Proof.
  induction fuel as [|fuel IH]; intros n p res out; [discriminate|].
  rewrite traverse_step. intros H.
  apply for_of_extends in H.
  - destruct H as [e ->]. exists e. now rewrite <- app_assoc.
  - intros k s s' Hk. destruct (IH _ _ _ _ Hk) as [e ->]. now eexists.
Qed.

(** X18.  Whatever the tree, when [find] finishes on an expression that
    resolves, its output begins with that expression as given. *)
Theorem find_begins_with_argument (v : VirtualFileSystem) (path out : string) :
  resolvePath v path <> None ->
  find v path = Some out ->
  exists rest, out = (path ++ rest)%string.
Proof.
  intros R. destruct (resolvePath v path) as [n|] eqn:E; [|congruence].
  rewrite (find_unfold v path n E).
  destruct (traverse v (walk_fuel v) n path []) as [lines|] eqn:T;
    [|discriminate].
  intros H. injection H as <-.
  destruct (traverse_pushes _ _ _ _ _ _ T) as [e ->]. simpl.
  destruct e as [|x e]; [exists ""; now rewrite append_nil_r_str|].
  now eexists.
Qed.

Lemma find_begins_with_argument_witness :
  resolvePath sample_tree "../a/" <> None /\
  find sample_tree "../a/"
  = Some ("../a/" ++ Js.crlf ++ "../a//c")%string /\
  exists rest,
    ("../a/" ++ Js.crlf ++ "../a//c")%string = ("../a/" ++ rest)%string.
Proof.
  assert (R : resolvePath sample_tree "../a/" <> None) by discriminate.
  split; [exact R|]. split; [reflexivity|].
  exact (find_begins_with_argument sample_tree "../a/" _ R eq_refl).
Defined.

(** X19.  On any heap, not only the constructed one: when no branch
    below the starting node is longer than the fuel [find] runs with,
    [find] finishes, and its output is the display paths of a pre-order
    enumeration from the starting node, joined by CR LF, which meets
    exactly the nodes under the start. *)
Theorem find_preorder_any_tree (v : VirtualFileSystem) (path : string)
        (start : ref) (d : nat) :
  resolvePath v path = Some start ->
  height_ok v d start = true ->
  d <= walk_fuel v ->
  exists visits,
    Preorder v start path visits /\
    find v path = Some (Js.join Js.crlf (map snd visits)) /\
    (forall m, In m (map fst visits) <-> Under v start m).
Proof.
  intros R H L.
  destruct (traverse_preorder v d (walk_fuel v) start path [] H L)
    as (visits & P & F & T).
  exists visits. split; [exact P|]. split.
  - rewrite (find_unfold v path start R), T. reflexivity.
  - intros m. rewrite F. split.
    + apply nodes_under_sound.
    + now apply nodes_under_complete.
Qed.

Lemma find_preorder_any_tree_witness :
  resolvePath sample_tree "/" = Some 0 /\
  height_ok sample_tree 3 0 = true /\
  3 <= walk_fuel sample_tree /\
  exists visits,
    Preorder sample_tree 0 "/" visits /\
    find sample_tree "/" = Some (Js.join Js.crlf (map snd visits)) /\
    (forall m, In m (map fst visits) <-> Under sample_tree 0 m).
Proof.
  assert (L : 3 <= walk_fuel sample_tree) by (apply Nat.leb_le; reflexivity).
  split; [reflexivity|]. split; [reflexivity|]. split; [exact L|].
  exact (find_preorder_any_tree sample_tree "/" 0 3 eq_refl eq_refl L).
Defined.

(** ** The prompt *)

(** X20.  At the root the prompt shows the home sign, in any heap; in
    every other reachable state it shows the path [getPwd] prints, which
    is then not ["/"]. *)
Theorem getPrompt_shows_location (v : VirtualFileSystem) :
  (currentDir v = root v -> getPrompt v = Some "root@saic:~$ ") /\
  (reachable v -> currentDir v <> root v ->
   exists cwd,
     getPwd v = Some cwd /\ cwd <> "/" /\
     getPrompt v = Some ("root@saic:" ++ cwd ++ "$ ")%string).
Proof.
  split.
  - intros E. unfold getPrompt, getPwd, names_to, walk_fuel.
    cbn [getPwd_loop]. rewrite E, Nat.eqb_refl. reflexivity.
  - intros R N. destruct (reachable_cases v R) as (c & Hc & ->).
    cbn [currentDir root] in N. simpl in Hc.
    destruct Hc as [<- | Hc]; [now elim N|].
    repeat (destruct Hc as [<- | Hc];
            [eexists; split; [vm_compute; reflexivity|];
             split; [discriminate | vm_compute; reflexivity]|]).
    contradiction.
Qed.

Lemma getPrompt_shows_location_witness :
  getPrompt sample_tree = Some "root@saic:/a$ " /\
  getPrompt (mkVFS (heap sample_tree) 0 0) = Some "root@saic:~$ " /\
  reachable in_exploits /\
  exists cwd,
    getPwd in_exploits = Some cwd /\ cwd <> "/" /\
    getPrompt in_exploits = Some ("root@saic:" ++ cwd ++ "$ ")%string.
Proof.
  destruct (getPrompt_shows_location (mkVFS (heap sample_tree) 0 0)) as (A & _).
  destruct (getPrompt_shows_location in_exploits) as (_ & B).
  split; [reflexivity|]. split; [exact (A eq_refl)|].
  split; [exact reachable_in_exploits|].
  exact (B reachable_in_exploits ltac:(discriminate)).
Defined.

(** ** Success and failure of [cd] *)

(** X21.  The empty string [cd] returns means success and nothing
    else: the message is empty exactly when the path is empty, is ["~"],
    or resolves to a directory; and a non-empty message comes with the
    object unchanged. *)
Theorem cd_empty_message_iff (v : VirtualFileSystem) (path : string) :
  (fst (cd v path) = "" <->
   path = "" \/ path = "~" \/
   exists n, resolvePath v path = Some n /\
             type (deref (heap v) n) = directory) /\
  (fst (cd v path) <> "" -> snd (cd v path) = v).
Proof.
  unfold cd, Js.truthy.
  destruct (String.eqb_spec path "") as [->|N1]; cbn [negb orb].
  { split; [split; auto|]. intros H. now elim H. }
  destruct (String.eqb_spec path "~") as [->|N2].
  { split; [split; auto|]. intros H. now elim H. }
  destruct (resolvePath v path) as [n|] eqn:R.
  - destruct (type (deref (heap v) n)) eqn:T; cbn [fst snd].
    + split; [|reflexivity]. split; [discriminate|].
      intros [E | [E | (m & Em & Tm)]]; congruence.
    + split; [|intros H; now elim H].
      split; [|reflexivity]. intros _. right. right. now exists n.
  - cbn [fst snd]. split; [|reflexivity]. split; [discriminate|].
    intros [E | [E | (m & Em & _)]]; congruence.
Qed.

Lemma cd_empty_message_iff_witness :
  fst (cd initial "flag.txt") <> "" /\
  snd (cd initial "flag.txt") = initial /\
  (exists n, resolvePath initial "secrets/" = Some n /\
             type (deref (heap initial) n) = directory) /\
  fst (cd initial "secrets/") = "".
Proof.
  assert (F : fst (cd initial "flag.txt") <> "") by discriminate.
  assert (E : exists n, resolvePath initial "secrets/" = Some n /\
                        type (deref (heap initial) n) = directory)
    by (exists 11; split; reflexivity).
  destruct (cd_empty_message_iff initial "flag.txt") as (_ & A).
  destruct (cd_empty_message_iff initial "secrets/") as (B & _).
  split; [exact F|]. split; [exact (A F)|]. split; [exact E|].
  exact (proj2 B (or_intror (or_intror E))).
Defined.
